(** * Naming and schema wrappers of the API generator

    A shallow embedding of [api_factory/schema/naming.py] and
    [api_factory/schema/wrappers.py], with the parts of Python's runtime
    the two modules lean on: exceptions, [str] methods, the backtracking
    regular expressions of [re] over code points, [os.path.commonprefix],
    sets and [sorted]. *)

From Stdlib Require Import List String Ascii Bool Arith Lia.
From Stdlib Require Import NArith Permutation Sorted OrdersEx RelationClasses.
Import ListNotations.
Local Open Scope string_scope.
Local Open Scope nat_scope.
Local Open Scope bool_scope.
Local Open Scope list_scope.

(** ** Exceptions *)

Module Py.

(** The exceptions that the two modules raise or provoke. *)
Inductive exn : Type :=
| AttributeError (what : string)
| ValueError (msg : string)
| TypeError (msg : string).

Inductive result (A : Type) : Type :=
| Ok (a : A)
| Raise (e : exn).
Arguments Ok {A} a.
Arguments Raise {A} e.

Definition bind {A B : Type} (x : result A) (f : A -> result B) : result B :=
  match x with
  | Ok a => f a
  | Raise e => Raise e
  end.

(** ** [str] *)

Definition is_range (lo hi c : ascii) : bool :=
  (N_of_ascii lo <=? N_of_ascii c)%N && (N_of_ascii c <=? N_of_ascii hi)%N.

Definition is_lower (c : ascii) : bool := is_range "a"%char "z"%char c.
Definition is_upper (c : ascii) : bool := is_range "A"%char "Z"%char c.

(** The case of an ASCII letter; other characters are left alone. *)
Definition ascii_upper (c : ascii) : ascii :=
  if is_lower c then ascii_of_N (N_of_ascii c - 32) else c.

Definition ascii_lower (c : ascii) : ascii :=
  if is_upper c then ascii_of_N (N_of_ascii c + 32) else c.

Fixpoint map_str (f : ascii -> ascii) (s : string) : string :=
  match s with
  | EmptyString => EmptyString
  | String c s' => String (f c) (map_str f s')
  end.

(** [str.capitalize] on ASCII text: first character upper-cased, the rest
    lower-cased.  [Naming.__init__] applies it to the [name] group of its
    pattern and to the pieces of the [namespace] group, which hold
    characters of [[a-z0-9_.]] only. *)
Definition capitalize (s : string) : string :=
  match s with
  | EmptyString => EmptyString
  | String c s' => String (ascii_upper c) (map_str ascii_lower s')
  end.

(** [str.split(sep)] for a one-character separator: empty pieces are kept,
    and the empty string splits into one empty piece. *)
Fixpoint split (sep : ascii) (s : string) : list string :=
  match s with
  | EmptyString => [EmptyString]
  | String c s' =>
      if Ascii.eqb c sep then EmptyString :: split sep s'
      else match split sep s' with
           | h :: t => String c h :: t
           | [] => [String c EmptyString]
           end
  end.

(** [sep.join(parts)]. *)
Definition join (sep : string) (parts : list string) : string :=
  String.concat sep parts.

(** Truth value of a [str] and of a list or tuple. *)
Definition str_bool (s : string) : bool :=
  match s with
  | EmptyString => false
  | String _ _ => true
  end.

Definition seq_bool {A : Type} (l : list A) : bool :=
  match l with
  | [] => false
  | _ :: _ => true
  end.

(** [x or y] on strings. *)
Definition str_or (x y : string) : string := if str_bool x then x else y.

(** A [str] that a pattern reads, as its code points. *)
Definition codepoints : Type := list N.

Definition code (c : ascii) : N := N_of_ascii c.

(** The code points of a literal, and the way back for code points
    below 256. *)
Definition codes (s : string) : codepoints :=
  map N_of_ascii (list_ascii_of_string s).

Definition of_codes (t : codepoints) : string :=
  string_of_list_ascii (map ascii_of_N t).

(** A range of a character class, such as [a-z]. *)
Definition between (lo hi : ascii) (n : N) : bool :=
  (code lo <=? n)%N && (n <=? code hi)%N.

Definition is_char (c : ascii) (n : N) : bool := (code c =? n)%N.

(** A text of ASCII characters only. *)
Definition is_ascii (s : codepoints) : bool :=
  forallb (fun x => (x <? 128)%N) s.

(** ** Sets, [sorted] and mappings *)

(** A set, as the list of its distinct members; [set_add] is [set.add]. *)
Definition set_add {A : Type} (eq_dec : forall x y : A, {x = y} + {x <> y})
    (acc : list A) (x : A) : list A :=
  if in_dec eq_dec x acc then acc else acc ++ [x].

(** [sorted]: a stable sort by insertion. *)
Fixpoint insert {A : Type} (leb : A -> A -> bool) (x : A) (l : list A)
  : list A :=
  match l with
  | [] => [x]
  | y :: l' => if leb x y then x :: l else y :: insert leb x l'
  end.

Definition sorted {A : Type} (leb : A -> A -> bool) (l : list A) : list A :=
  fold_right (insert leb) [] l.

(** The order of [str], and of pairs of [str] (first components first). *)
Definition str_compare : string -> string -> comparison :=
  String_as_OT.compare.

Definition str_leb (a b : string) : bool :=
  match str_compare a b with
  | Gt => false
  | _ => true
  end.

Definition pair_compare (a b : string * string) : comparison :=
  match str_compare (fst a) (fst b) with
  | Eq => str_compare (snd a) (snd b)
  | o => o
  end.

Definition pair_leb (a b : string * string) : bool :=
  match pair_compare a b with
  | Gt => false
  | _ => true
  end.

Definition pair_lt (a b : string * string) : Prop := pair_compare a b = Lt.

Definition pair_eq_dec (a b : string * string) : {a = b} + {a <> b}.
Proof.
  decide equality; apply string_dec.
Defined.

(** A mapping with [str] keys, entries in insertion order. *)
Definition dict (V : Type) : Type := list (string * V).

Definition values {V : Type} (d : dict V) : list V := map snd d.

Fixpoint lookup {V : Type} (k : string) (d : dict V) : option V :=
  match d with
  | [] => None
  | (k', v) :: d' => if String.eqb k k' then Some v else lookup k d'
  end.

Definition option_eqb {V : Type} (eqb : V -> V -> bool) (x y : option V)
  : bool :=
  match x, y with
  | Some a, Some b => eqb a b
  | None, None => true
  | _, _ => false
  end.

(** Equality of mappings: every key of either has equal values in both. *)
Definition dict_eqb {V : Type} (eqb : V -> V -> bool) (a b : dict V) : bool :=
  forallb (fun k => option_eqb eqb (lookup k a) (lookup k b))
          (map fst a ++ map fst b).

Fixpoint list_eqb {V : Type} (eqb : V -> V -> bool) (a b : list V) : bool :=
  match a, b with
  | [], [] => true
  | x :: a', y :: b' => eqb x y && list_eqb eqb a' b'
  | _, _ => false
  end.

Definition dec_eqb {A : Type} (eq_dec : forall x y : A, {x = y} + {x <> y})
    (x y : A) : bool :=
  if eq_dec x y then true else false.

End Py.

(** ** Regular expressions ([re]) *)

Module Re.

Import Py.

(** The fragment of the pattern language that the sources use, over code
    points.  A group is named; a numbered group carries its number as its
    name. *)
Inductive regex : Type :=
| Eps
| Bol
| Chr (p : N -> bool)
| Seq (r1 r2 : regex)
| Alt (r1 r2 : regex)
| Star (r : regex)
| Grp (name : string) (r : regex).

(** [r?], [r+] and a literal word, all greedy as in [re]. *)
Definition Opt (r : regex) : regex := Alt r Eps.
Definition Plus (r : regex) : regex := Seq r (Star r).
Definition Lit1 (c : ascii) : regex := Chr (is_char c).

Fixpoint Lit (w : string) : regex :=
  match w with
  | EmptyString => Eps
  | String c w' => Seq (Lit1 c) (Lit w')
  end.

(** Captured groups, most recent first. *)
Definition caps : Type := list (string * codepoints).

Fixpoint group (g : string) (c : caps) : option codepoints :=
  match c with
  | [] => None
  | (g', w) :: c' => if String.eqb g g' then Some w else group g c'
  end.

(** What is left of the text, and the groups, at the end of a match. *)
Definition answer : Type := (codepoints * caps)%type.
Definition cont : Type := codepoints -> caps -> option answer.

Definition orelse (x y : option answer) : option answer :=
  match x with
  | Some a => Some a
  | None => y
  end.

(** Greedy iteration: one more round of [m] if it consumes something and
    the rest then matches, otherwise stop here.  [n] bounds the rounds by
    the length of the text. *)
Fixpoint star_loop (m : cont -> cont) (k : cont) (n : nat)
    (s : codepoints) (c : caps) : option answer :=
  match n with
  | O => k s c
  | S n' =>
      orelse
        (m (fun s' c' =>
              if List.length s' <? List.length s then star_loop m k n' s' c'
              else None) s c)
        (k s c)
  end.

(** The backtracking matcher, in continuation-passing style: alternatives
    are tried left to right, and the first complete match wins.  [total]
    is the length of the whole text, for [^]. *)
Fixpoint rmatch (total : nat) (r : regex) (k : cont)
    (s : codepoints) (c : caps) {struct r} : option answer :=
  match r with
  | Eps => k s c
  | Bol => if List.length s =? total then k s c else None
  | Chr p =>
      match s with
      | a :: s' => if p a then k s' c else None
      | [] => None
      end
  | Seq r1 r2 => rmatch total r1 (rmatch total r2 k) s c
  | Alt r1 r2 => orelse (rmatch total r1 k s c) (rmatch total r2 k s c)
  | Star r1 => star_loop (rmatch total r1) k (List.length s) s c
  | Grp g r1 =>
      rmatch total r1
        (fun s' c' => k s' ((g, firstn (List.length s - List.length s') s) :: c'))
        s c
  end.

Definition accept : cont := fun s c => Some (s, c).

(** A match of [r] that starts exactly at the front of [s]. *)
Definition match_here (total : nat) (r : regex) (s : codepoints)
  : option answer :=
  rmatch total r accept s [].

(** [re.search]: the first position, from the left, with a match. *)
Fixpoint search_from (total : nat) (r : regex) (s : codepoints)
  : option answer :=
  match match_here total r s with
  | Some a => Some a
  | None =>
      match s with
      | [] => None
      | _ :: s' => search_from total r s'
      end
  end.

Definition search (r : regex) (subject : string) : option caps :=
  let s := codes subject in
  option_map snd (search_from (List.length s) r s).

(** [m[g]] for a match object [m]: [None] for a group that took no part. *)
Definition getgroup (g : string) (m : caps) : option string :=
  option_map of_codes (group g m).

(** [re.findall] for a pattern with exactly one group, numbered 1: the
    text of that group for each match, left to right, matches not
    overlapping; after an empty match the scan moves on by one. *)
Fixpoint findall_from (total : nat) (r : regex) (n : nat)
    (s : codepoints) : list codepoints :=
  match n with
  | O => []
  | S n' =>
      match match_here total r s with
      | Some (s', c) =>
          let g := match group "1" c with Some w => w | None => [] end in
          if List.length s' <? List.length s then
            g :: findall_from total r (n' - (List.length s - List.length s' - 1)) s'
          else
            g :: match s with
                 | [] => []
                 | _ :: t => findall_from total r n' t
                 end
      | None =>
          match s with
          | [] => []
          | _ :: t => findall_from total r n' t
          end
      end
  end.

Definition findall (r : regex) (s : codepoints) : list codepoints :=
  findall_from (List.length s) r (S (List.length s)) s.

(** The texts a pattern can match, positions and groups set aside. *)
Inductive lang : regex -> codepoints -> Prop :=
| lang_eps : lang Eps []
| lang_bol : lang Bol []
| lang_chr p a : p a = true -> lang (Chr p) [a]
| lang_seq r1 r2 w1 w2 :
    lang r1 w1 -> lang r2 w2 -> lang (Seq r1 r2) (w1 ++ w2)
| lang_alt_l r1 r2 w : lang r1 w -> lang (Alt r1 r2) w
| lang_alt_r r1 r2 w : lang r2 w -> lang (Alt r1 r2) w
| lang_star_nil r : lang (Star r) []
| lang_star_cons r w1 w2 :
    lang r w1 -> lang (Star r) w2 -> lang (Star r) (w1 ++ w2)
| lang_grp g r w : lang r w -> lang (Grp g r) w.

(** The classes [\w] and [\d] of a [str] pattern follow the Unicode
    database: [\w] is what [str.isalnum] accepts and the underscore, [\d]
    the decimal digits.  Both are tables of the interpreter, taken as
    parameters where a pattern uses them; below code point 128 they are
    the ASCII classes. *)
Definition ascii_word (c : N) : bool :=
  between "a" "z" c || between "A" "Z" c || between "0" "9" c || is_char "_" c.

Definition ascii_decimal (c : N) : bool := between "0" "9" c.

Definition unicode_tables (word decimal : N -> bool) : Prop :=
  forall c, (c < 128)%N -> word c = ascii_word c /\ decimal c = ascii_decimal c.

(** The groups of a pattern. *)
Fixpoint names (r : regex) : list string :=
  match r with
  | Eps | Bol | Chr _ => []
  | Seq r1 r2 | Alt r1 r2 => names r1 ++ names r2
  | Star r1 => names r1
  | Grp g r1 => g :: names r1
  end.

(** [c'] differs from [c] on the groups [gs] at most. *)
Definition keeps (gs : list string) (c c' : caps) : Prop :=
  forall g, ~ In g gs -> group g c' = group g c.

(** Whatever a matcher [m] for [r] hands to its continuation is what is
    left after a text of [r], with only the groups of [r] touched. *)
Definition sound_for (r : regex) (m : cont -> cont) : Prop :=
  forall k s c a,
    m k s c = Some a ->
    exists w s' c',
      s = w ++ s' /\ lang r w /\ k s' c' = Some a /\ keeps (names r) c c'.

(** Two patterns of one shape whose classes agree on the code points of
    a text. *)
Inductive same_on (s0 : codepoints) : regex -> regex -> Prop :=
| same_eps : same_on s0 Eps Eps
| same_bol : same_on s0 Bol Bol
| same_chr p q :
    (forall x, In x s0 -> p x = q x) -> same_on s0 (Chr p) (Chr q)
| same_seq r1 r2 r1' r2' :
    same_on s0 r1 r1' -> same_on s0 r2 r2' ->
    same_on s0 (Seq r1 r2) (Seq r1' r2')
| same_alt r1 r2 r1' r2' :
    same_on s0 r1 r1' -> same_on s0 r2 r2' ->
    same_on s0 (Alt r1 r2) (Alt r1' r2')
| same_star r r' : same_on s0 r r' -> same_on s0 (Star r) (Star r')
| same_grp g r r' : same_on s0 r r' -> same_on s0 (Grp g r) (Grp g r').

(** Continuations that agree on what is left of the text. *)
Definition same_cont (s0 : codepoints) (k k' : cont) : Prop :=
  forall s c, incl s s0 -> k s c = k' s c.

End Re.

Import Py Re.

Declare Scope re_scope.
Delimit Scope re_scope with re.
Bind Scope re_scope with regex.
Infix "+>" := Seq (at level 61, right associativity) : re_scope.
Infix "</>" := Alt (at level 62, right associativity) : re_scope.

(** [[a-z0-9_.]] and [[a-z0-9_]]. *)
Definition ns_char (c : N) : bool :=
  between "a" "z" c || between "0" "9" c || is_char "_" c || is_char "." c.
Definition name_char (c : N) : bool :=
  between "a" "z" c || between "0" "9" c || is_char "_" c.

(** [v[0-9]+(p[0-9]+)?((alpha|beta|test)[0-9])*] *)
Definition version_re : regex :=
  (Lit1 "v" +> Plus (Chr (between "0" "9")) +>
   Opt (Lit1 "p" +> Plus (Chr (between "0" "9"))) +>
   Star ((Lit "alpha" </> Lit "beta" </> Lit "test") +> Chr (between "0" "9")))%re.

(** The pattern of [Naming.__init__], group by group:
    [^(?P<namespace>[a-z0-9_.]+\.)?], [(?P<name>[a-z0-9_]+)] and
    [(\.(?P<version>...))?]. *)
Definition namespace_group : regex :=
  Grp "namespace" (Plus (Chr ns_char) +> Lit1 ".")%re.

Definition name_group : regex := Grp "name" (Plus (Chr name_char)).

Definition version_group : regex := Grp "version" version_re.

Definition naming_pattern : regex :=
  (Bol +> Opt namespace_group +> name_group
   +> Opt (Lit1 "." +> version_group))%re.

(** What follows the namespace in the pattern. *)
Definition after_namespace : regex :=
  (name_group +> Opt (Lit1 "." +> version_group))%re.

(** ** [os.path.commonprefix] *)

Module GenericPath.

(** [min] and [max] of a non-empty collection of strings; [str] is
    ordered by code point, lexicographically. *)
Definition str_min (a b : string) : string := if str_leb a b then a else b.
Definition str_max (a b : string) : string := if str_leb a b then b else a.

Definition minimum (x : string) (m : list string) : string :=
  fold_left str_min m x.
Definition maximum (x : string) (m : list string) : string :=
  fold_left str_max m x.

(** The loop [for i, c in enumerate(s1): if c != s2[i]: return s1[:i]],
    then [return s1].  When [s1 <= s2] the index [i] stays inside [s2]. *)
Fixpoint first_mismatch (s1 s2 : string) : string :=
  match s1, s2 with
  | String c t1, String d t2 =>
      if Ascii.eqb c d then String c (first_mismatch t1 t2) else EmptyString
  | _, _ => EmptyString
  end.

(** What a caller hands to [commonprefix]: a list or tuple of strings, or
    a set of them (its members, each once). *)
Inductive collection : Type :=
| PyList (items : list string)
| PySet (members : list string).

Definition elements (m : collection) : list string :=
  match m with
  | PyList items => items
  | PySet members => members
  end.

(** The [TypeError] of a subscript on a set, with CPython's message. *)
Definition not_subscriptable : exn :=
  TypeError "'set' object is not subscriptable".

(** [m[0]]: a set has no subscript. *)
Definition first (m : collection) : result (option string) :=
  match m with
  | PyList items => Ok (hd_error items)
  | PySet _ => Raise not_subscriptable
  end.

(** [commonprefix(m)]: [if not m: return ''], then the test
    [isinstance(m[0], (list, tuple))], which evaluates [m[0]] and so raises
    on a set that has a member; for strings, the part of [s1 = min(m)]
    before its first mismatch with [s2 = max(m)]. *)
Definition commonprefix (m : collection) : result string :=
  match elements m with
  | [] => Ok EmptyString
  | x :: m' =>
      bind (first m) (fun _ =>
      Ok (first_mismatch (minimum x m') (maximum x m')))
  end.

End GenericPath.

(** ** Raw declarations and annotations (protocol buffer messages) *)

Module Proto.

(** The [google.api.metadata] file annotation; every field has the empty
    default when the annotation is absent. *)
Record ApiMetadata : Type := {
  package_name : string;
  package_namespace : list string;
  product_name : string;
  product_url : string
}.

Definition no_metadata : ApiMetadata :=
  {| package_name := ""; package_namespace := [];
     product_name := ""; product_url := "" |}.

(** What [Naming] reads of a [FileDescriptorProto]: [fd.package] and
    [fd.options.Extensions[annotations_pb2.metadata]]. *)
Record FileDescriptorProto : Type := {
  package : string;
  metadata : ApiMetadata
}.

(** The raw declarations that the wrappers carry. *)
Record FieldDescriptorProto : Type := {
  field_name : string;
  field_number : nat
}.

Record DescriptorProto : Type := {
  message_name : string
}.

Record EnumValueDescriptorProto : Type := {
  value_name : string;
  value_number : nat
}.

Record EnumDescriptorProto : Type := {
  enum_name : string
}.

(** The [google.api.http] rule of a method: the path template of the verb
    that is bound, the empty string for every other verb. *)
Record HttpRule : Type := {
  get : codepoints;
  put : codepoints;
  post : codepoints;
  delete : codepoints;
  patch : codepoints;
  body : codepoints
}.

Record MethodDescriptorProto : Type := {
  method_name : string;
  http : HttpRule
}.

(** A service with its [google.api.default_host] and OAuth scopes. *)
Record ServiceDescriptorProto : Type := {
  service_name : string;
  default_host : string;
  oauth_scopes : list string
}.

Definition FieldDescriptorProto_eq_dec (x y : FieldDescriptorProto)
  : {x = y} + {x <> y}.
Proof. decide equality; (apply string_dec || apply Nat.eq_dec). Defined.

Definition DescriptorProto_eq_dec (x y : DescriptorProto) : {x = y} + {x <> y}.
Proof. decide equality; apply string_dec. Defined.

Definition EnumValueDescriptorProto_eq_dec (x y : EnumValueDescriptorProto)
  : {x = y} + {x <> y}.
Proof. decide equality; (apply string_dec || apply Nat.eq_dec). Defined.

Definition EnumDescriptorProto_eq_dec (x y : EnumDescriptorProto)
  : {x = y} + {x <> y}.
Proof. decide equality; apply string_dec. Defined.

Definition MethodDescriptorProto_eq_dec (x y : MethodDescriptorProto)
  : {x = y} + {x <> y}.
Proof.
  repeat (decide equality; try apply string_dec; try apply N.eq_dec).
Defined.

Definition ServiceDescriptorProto_eq_dec (x y : ServiceDescriptorProto)
  : {x = y} + {x <> y}.
Proof.
  decide equality; try apply string_dec; apply (list_eq_dec string_dec).
Defined.

End Proto.

(** ** naming.py *)

Module Naming.

Import GenericPath.

(** The values a naming field holds at run time. *)
Inductive value : Type :=
| VNone
| VStr (s : string)
| VList (l : list string)
| VTuple (l : list string).

Definition truthy (v : value) : bool :=
  match v with
  | VNone => false
  | VStr s => str_bool s
  | VList l => seq_bool l
  | VTuple l => seq_bool l
  end.

Definition value_eq_dec (x y : value) : {x = y} + {x <> y}.
Proof.
  decide equality; try apply string_dec; apply (list_eq_dec string_dec).
Defined.

(** The dataclass [NamingBase], fields in declaration order. *)
Record NamingBase : Type := {
  name : value;
  namespace : value;
  version : value;
  product_name : value;
  product_url : value
}.

Definition NamingBase_eq_dec (x y : NamingBase) : {x = y} + {x <> y}.
Proof.
  decide equality; apply value_eq_dec.
Defined.

Inductive field : Type :=
| f_name | f_namespace | f_version | f_product_name | f_product_url.

Definition field_eqb (a b : field) : bool :=
  match a, b with
  | f_name, f_name | f_namespace, f_namespace | f_version, f_version
  | f_product_name, f_product_name | f_product_url, f_product_url => true
  | _, _ => false
  end.

(** [dataclasses.fields]: a tuple, one entry per field. *)
Definition dataclasses_fields : list field :=
  [f_name; f_namespace; f_version; f_product_name; f_product_url].

Definition field_value (n : NamingBase) (k : field) : value :=
  match k with
  | f_name => name n
  | f_namespace => namespace n
  | f_version => version n
  | f_product_name => product_name n
  | f_product_url => product_url n
  end.

(** [dataclasses.asdict(n).items()]. *)
Definition asdict (n : NamingBase) : list (field * value) :=
  map (fun k => (k, field_value n k)) dataclasses_fields.

(** [NamingBase] defines neither [__bool__] nor [__len__]: an instance is
    true, whatever its fields. *)
Definition NamingBase_bool (n : NamingBase) : bool := true.

(** A [Naming] instance: its attributes, unset before [__init__] runs. *)
Definition Naming : Type := field -> option value.

Definition blank : Naming := fun _ => None.

(** [object.__setattr__(self, k, v)]. *)
Definition setattr (self : Naming) (k : field) (v : value) : Naming :=
  fun k' => if field_eqb k k' then Some v else self k'.

Definition field_name (k : field) : string :=
  match k with
  | f_name => "name"
  | f_namespace => "namespace"
  | f_version => "version"
  | f_product_name => "product_name"
  | f_product_url => "product_url"
  end.

Definition getattr (self : Naming) (k : field) : result value :=
  match self k with
  | Some v => Ok v
  | None => Raise (AttributeError (field_name k))
  end.

(** [proto_packages], a set comprehension, and [root_package]: the set
    itself goes to [os.path.commonprefix]. *)
Definition proto_packages (file_descriptors : list Proto.FileDescriptorProto)
  : list string :=
  fold_left (set_add string_dec) (map Proto.package file_descriptors) [].

Definition root_package (file_descriptors : list Proto.FileDescriptorProto)
  : result string :=
  commonprefix (PySet (proto_packages file_descriptors)).

(** [re.search(...).groupdict()]; on no match it is [None.groupdict()]. *)
Definition groupdict (m : option caps) : result caps :=
  match m with
  | Some c => Ok c
  | None => Raise (AttributeError "groupdict")
  end.

(** A method call on a group that may be [None]. *)
Definition method {A : Type} (what : string) (f : string -> A)
    (g : option string) : result A :=
  match g with
  | Some s => Ok (f s)
  | None => Raise (AttributeError what)
  end.

Definition opt_value (g : option string) : value :=
  match g with
  | Some s => VStr s
  | None => VNone
  end.

(** The [NamingBase(...)] call that builds [package_info]; the keyword
    arguments are evaluated in the order written. *)
Definition make_package_info (m : caps) : result NamingBase :=
  bind (method "capitalize" capitalize (getgroup "name" m)) (fun n =>
  bind (method "split" (split ".") (getgroup "namespace" m)) (fun ns =>
  bind (method "capitalize" capitalize (getgroup "name" m)) (fun pn =>
  Ok {| name := VStr n;
        namespace := VList (map capitalize ns);
        product_name := VStr pn;
        product_url := VStr "";
        version := opt_value (getgroup "version" m) |}))).

(** Lines 77 to 88: [package_info] from the root package. *)
Definition split_package (root_package : string) : result NamingBase :=
  bind (groupdict (search naming_pattern root_package)) make_package_info.

Definition package_info (file_descriptors : list Proto.FileDescriptorProto)
  : result NamingBase :=
  bind (root_package file_descriptors) split_package.

(** The record built from one file's metadata annotation. *)
Definition metadata_naming (fd : Proto.FileDescriptorProto) : NamingBase :=
  let meta := Proto.metadata fd in
  {| name := VStr (str_or (Proto.package_name meta) (Proto.product_name meta));
     namespace := VTuple (Proto.package_namespace meta);
     product_name := VStr (Proto.product_name meta);
     product_url := VStr (Proto.product_url meta);
     version := VStr "" |}.

(** The loop that fills [metadata_info]. *)
Definition metadata_info (file_descriptors : list Proto.FileDescriptorProto)
  : list NamingBase :=
  fold_left
    (fun acc fd =>
       let naming := metadata_naming fd in
       if NamingBase_bool naming then set_add NamingBase_eq_dec acc naming
       else acc)
    file_descriptors [].

Definition ambiguous_version : exn :=
  ValueError
    "All protos must have the same proto package up to and including the version.".

Definition conflicting_metadata : exn :=
  ValueError
    "If the google.api.metadata annotation is provided in more than one file, it must be consistent.".

(** The two loops at the end of [__init__]. *)
Definition write_all (self : Naming) (n : NamingBase) : Naming :=
  fold_left (fun self kv => setattr self (fst kv) (snd kv)) (asdict n) self.

Definition write_truthy (self : Naming) (n : NamingBase) : Naming :=
  fold_left
    (fun self kv => if truthy (snd kv) then setattr self (fst kv) (snd kv)
                    else self)
    (asdict n) self.

Definition merge (self : Naming) (package_info : NamingBase)
    (metadata_info : list NamingBase) : Naming :=
  let self := write_all self package_info in
  match metadata_info with
  | [] => self
  | popped :: _ => write_truthy self popped
  end.

(** Lines 90 to 130: the two sanity checks and the merge, once
    [package_info] is there. *)
Definition resolve (file_descriptors : list Proto.FileDescriptorProto)
    (package_info : NamingBase) : result Naming :=
  let proto_packages := proto_packages file_descriptors in
  if negb (truthy (version package_info)) && (1 <? List.length proto_packages)
  then Raise ambiguous_version
  else
    let metadata_info := metadata_info file_descriptors in
    if 1 <? List.length metadata_info then Raise conflicting_metadata
    else Ok (merge blank package_info metadata_info).

(** [Naming.__init__]. *)
Definition init (file_descriptors : list Proto.FileDescriptorProto)
  : result Naming :=
  bind (package_info file_descriptors) (resolve file_descriptors).

(** [tuple.keys]: a tuple has no such attribute. *)
Definition tuple_keys {A : Type} (t : list A) : result (list field) :=
  Raise (AttributeError "keys").

Fixpoint collect {A B : Type} (f : A -> result B) (l : list A)
  : result (list B) :=
  match l with
  | [] => Ok []
  | x :: l' => bind (f x) (fun y => bind (collect f l') (fun ys => Ok (y :: ys)))
  end.

(** [Naming.__bool__]. *)
Definition Naming_bool (self : Naming) : result bool :=
  bind (tuple_keys dataclasses_fields) (fun keys =>
  bind (collect (getattr self) keys) (fun vs =>
  Ok (existsb truthy vs))).

End Naming.

(** ** metadata.py *)

Module Metadata.

(** Modelled from the spec: [api_factory/schema/metadata.py] is not among
    the sources.  An entity's [meta] record carries a documentation string
    and an address; the wrappers read the address's package path (a
    sequence of segments) and its module. *)
Record Address : Type := {
  package : list string;
  module : string
}.

Record t : Type := {
  address : Address;
  doc : string
}.

(** [Metadata()], the value of the [default_factory]. *)
Definition default : t :=
  {| address := {| package := []; module := "" |}; doc := "" |}.

Definition eq_dec (x y : t) : {x = y} + {x <> y}.
Proof.
  repeat (decide equality; try apply string_dec).
Defined.

(** The dataclass's [__eq__]. *)
Definition eqb : t -> t -> bool := dec_eqb eq_dec.

Definition or_default (meta : option t) : t :=
  match meta with
  | Some m => m
  | None => default
  end.

End Metadata.

(** ** wrappers.py *)

Module Field.

Record t : Type := {
  field_pb : Proto.FieldDescriptorProto;
  meta : Metadata.t
}.

(** [Field(field_pb, meta)]; [meta] is optional. *)
Definition new (field_pb : Proto.FieldDescriptorProto)
    (meta : option Metadata.t) : t :=
  {| field_pb := field_pb; meta := Metadata.or_default meta |}.

(** The [__eq__] that the dataclass decorator writes: field by field. *)
Definition eqb (a b : t) : bool :=
  dec_eqb Proto.FieldDescriptorProto_eq_dec (field_pb a) (field_pb b)
  && Metadata.eqb (meta a) (meta b).

End Field.

Module MessageType.

Record t : Type := {
  message_pb : Proto.DescriptorProto;
  fields : dict Field.t;
  meta : Metadata.t
}.

Definition new (message_pb : Proto.DescriptorProto) (fields : dict Field.t)
    (meta : option Metadata.t) : t :=
  {| message_pb := message_pb; fields := fields;
     meta := Metadata.or_default meta |}.

Definition eqb (a b : t) : bool :=
  dec_eqb Proto.DescriptorProto_eq_dec (message_pb a) (message_pb b)
  && dict_eqb Field.eqb (fields a) (fields b)
  && Metadata.eqb (meta a) (meta b).

(** [pb2_module]: the f-string [{self.meta.address.module}_pb2]. *)
Definition pb2_module (self : t) : string :=
  String.append (Metadata.module (Metadata.address (meta self))) "_pb2".

End MessageType.

Module EnumValueType.

Record t : Type := {
  enum_value_pb : Proto.EnumValueDescriptorProto;
  meta : Metadata.t
}.

Definition new (enum_value_pb : Proto.EnumValueDescriptorProto)
    (meta : option Metadata.t) : t :=
  {| enum_value_pb := enum_value_pb; meta := Metadata.or_default meta |}.

Definition eqb (a b : t) : bool :=
  dec_eqb Proto.EnumValueDescriptorProto_eq_dec
    (enum_value_pb a) (enum_value_pb b)
  && Metadata.eqb (meta a) (meta b).

End EnumValueType.

Module EnumType.

Record t : Type := {
  enum_pb : Proto.EnumDescriptorProto;
  values : list EnumValueType.t;
  meta : Metadata.t
}.

Definition new (enum_pb : Proto.EnumDescriptorProto)
    (values : list EnumValueType.t) (meta : option Metadata.t) : t :=
  {| enum_pb := enum_pb; values := values;
     meta := Metadata.or_default meta |}.

Definition eqb (a b : t) : bool :=
  dec_eqb Proto.EnumDescriptorProto_eq_dec (enum_pb a) (enum_pb b)
  && list_eqb EnumValueType.eqb (values a) (values b)
  && Metadata.eqb (meta a) (meta b).

End EnumType.

Module Method.

Record t : Type := {
  method_pb : Proto.MethodDescriptorProto;
  input : MessageType.t;
  output : MessageType.t;
  lro_payload : option MessageType.t;
  lro_metadata : option MessageType.t;
  meta : Metadata.t
}.

Definition new (method_pb : Proto.MethodDescriptorProto)
    (input output : MessageType.t)
    (lro_payload lro_metadata : option MessageType.t)
    (meta : option Metadata.t) : t :=
  {| method_pb := method_pb; input := input; output := output;
     lro_payload := lro_payload; lro_metadata := lro_metadata;
     meta := Metadata.or_default meta |}.

Definition eqb (a b : t) : bool :=
  dec_eqb Proto.MethodDescriptorProto_eq_dec (method_pb a) (method_pb b)
  && MessageType.eqb (input a) (input b)
  && MessageType.eqb (output a) (output b)
  && option_eqb MessageType.eqb (lro_payload a) (lro_payload b)
  && option_eqb MessageType.eqb (lro_metadata a) (lro_metadata b)
  && Metadata.eqb (meta a) (meta b).

Section Pattern.

(** The interpreter's tables for [\w] and [\d]. *)
Variables word decimal : N -> bool.

(** [[\w\d_.]] *)
Definition header_char (c : N) : bool :=
  word c || decimal c || is_char "_" c || is_char "." c.

(** The pattern of [field_headers]: [\{([a-z][\w\d_.]+)=] *)
Definition header_pattern : regex :=
  (Lit1 "{" +> Grp "1" (Chr (between "a" "z") +> Plus (Chr header_char))
   +> Lit1 "=")%re.

(** The texts that the group of the pattern takes: one of [a-z], then one
    or more header characters. *)
Definition valid_header (w : codepoints) : bool :=
  match w with
  | a :: b :: rest =>
      between "a" "z" a && header_char b && forallb header_char rest
  | _ => false
  end.

(** The property [field_headers]. *)
Definition field_headers (self : t) : list codepoints :=
  let http := Proto.http (method_pb self) in
  if seq_bool (Proto.get http) then findall header_pattern (Proto.get http)
  else [].

End Pattern.

End Method.

Module Service.

Record t : Type := {
  service_pb : Proto.ServiceDescriptorProto;
  methods : dict Method.t;
  meta : Metadata.t
}.

Definition new (service_pb : Proto.ServiceDescriptorProto)
    (methods : dict Method.t) (meta : option Metadata.t) : t :=
  {| service_pb := service_pb; methods := methods;
     meta := Metadata.or_default meta |}.

Definition eqb (a b : t) : bool :=
  dec_eqb Proto.ServiceDescriptorProto_eq_dec (service_pb a) (service_pb b)
  && dict_eqb Method.eqb (methods a) (methods b)
  && Metadata.eqb (meta a) (meta b).

(** Modelled from the spec: [utils.Placeholder] is not among the sources.
    It marks a text as a placeholder, so that a template can tell it from
    a value that was given. *)
Inductive text : Type :=
| Plain (s : string)
| Placeholder (s : string).

Definition text_of (x : text) : string :=
  match x with
  | Plain s => s
  | Placeholder s => s
  end.

Definition is_placeholder (x : text) : bool :=
  match x with
  | Plain _ => false
  | Placeholder _ => true
  end.

(** The property [host]. *)
Definition host (self : t) : text :=
  if str_bool (Proto.default_host (service_pb self))
  then Plain (Proto.default_host (service_pb self))
  else Placeholder "<<< SERVICE ADDRESS >>>".

(** The pair that [pb2_modules] adds for a message. *)
Definition module_pair (m : MessageType.t) : string * string :=
  (join "." (Metadata.package (Metadata.address (MessageType.meta m))),
   MessageType.pb2_module m).

(** One round of the loop over the methods.  A [MessageType] defines
    neither [__bool__] nor [__len__], so [if method.lro_payload] asks
    whether the reference is there. *)
Definition visit (answer : list (string * string)) (method : Method.t)
  : list (string * string) :=
  let answer := set_add pair_eq_dec answer (module_pair (Method.input method)) in
  let answer := set_add pair_eq_dec answer (module_pair (Method.output method)) in
  let answer :=
    match Method.lro_payload method with
    | Some m => set_add pair_eq_dec answer (module_pair m)
    | None => answer
    end in
  match Method.lro_metadata method with
  | Some m => set_add pair_eq_dec answer (module_pair m)
  | None => answer
  end.

(** The property [pb2_modules]. *)
Definition pb2_modules (self : t) : list (string * string) :=
  sorted pair_leb (fold_left visit (Py.values (methods self)) []).

End Service.

(** ** The spec's reading of the root package *)

Module Spec.

(** The common leading part of two sequences of segments. *)
Fixpoint common_segments (a b : list string) : list string :=
  match a, b with
  | x :: a', y :: b' => if String.eqb x y then x :: common_segments a' b' else []
  | _, _ => []
  end.

(** The root package as the spec words it: the common prefix of the
    dot-split segment sequences, joined again. *)
Definition root_package_by_segments (packages : list string) : string :=
  match map (split ".") packages with
  | [] => EmptyString
  | x :: rest => join "." (fold_left common_segments rest x)
  end.

(** The spec's pattern for field headers: a brace, a group made of one
    of [a-z] and then any number (none included) of [[\w.]], an equals
    sign. *)
Definition header_pattern (word : N -> bool) : regex :=
  (Lit1 "{"
   +> Grp "1" (Chr (between "a" "z")
               +> Star (Chr (fun c => word c || is_char "." c)))
   +> Lit1 "=")%re.

Definition field_headers (word : N -> bool) (self : Method.t)
  : list codepoints :=
  let http := Proto.http (Method.method_pb self) in
  if seq_bool (Proto.get http)
  then findall (header_pattern word) (Proto.get http)
  else [].

(** The pairs a method refers to: those of its request and response
    messages and, where present, of its long-running-operation payload
    and metadata messages. *)
Definition referenced (method : Method.t) : list (string * string) :=
  [Service.module_pair (Method.input method);
   Service.module_pair (Method.output method)]
  ++ match Method.lro_payload method with
     | Some m => [Service.module_pair m]
     | None => []
     end
  ++ match Method.lro_metadata method with
     | Some m => [Service.module_pair m]
     | None => []
     end.

(** Ascending by package, then by module. *)
Definition by_package_then_module (a b : string * string) : Prop :=
  str_compare (fst a) (fst b) = Lt
  \/ (fst a = fst b /\ str_compare (snd a) (snd b) = Lt).

End Spec.

(** ** wrappers.py: the other views of a service *)

Module ServiceViews.

(** The truth value of an optional reference to a message. *)
Definition present {A : Type} (x : option A) : bool :=
  match x with
  | Some _ => true
  | None => false
  end.

(** The property [oauth_scopes]. *)
Definition oauth_scopes (self : Service.t) : list string :=
  Proto.oauth_scopes (Service.service_pb self).

(** The property [has_lro]: [any] over the payload references. *)
Definition has_lro (self : Service.t) : bool :=
  existsb (fun m => present (Method.lro_payload m))
          (Py.values (Service.methods self)).

(** The property [has_field_headers]: [any] over the header tuples. *)
Definition has_field_headers (word decimal : N -> bool) (self : Service.t)
  : bool :=
  existsb (fun m => seq_bool (Method.field_headers word decimal m))
          (Py.values (Service.methods self)).

End ServiceViews.

(** ** Sample declarations *)

Module Samples.

(** A file with a package name and a metadata annotation. *)
Definition file_of (package : string) (meta : Proto.ApiMetadata)
  : Proto.FileDescriptorProto :=
  {| Proto.package := package; Proto.metadata := meta |}.

Definition acme : Proto.ApiMetadata :=
  {| Proto.package_name := ""; Proto.package_namespace := [];
     Proto.product_name := "Acme Library"; Proto.product_url := "" |}.

(** Two files of one package, the first with an annotation. *)
Definition annotated_once : list Proto.FileDescriptorProto :=
  [file_of "example.library.v1" acme;
   file_of "example.library.v1" Proto.no_metadata].

(** A message of module [module] in package [package], a method from one
    such message to another, and a service with given methods. *)
Definition message_in (package : list string) (module : string)
  : MessageType.t :=
  MessageType.new {| Proto.message_name := "Message" |} []
    (Some {| Metadata.address :=
               {| Metadata.package := package; Metadata.module := module |};
             Metadata.doc := "" |}).

Definition no_http : Proto.HttpRule :=
  {| Proto.get := []; Proto.put := []; Proto.post := [];
     Proto.delete := []; Proto.patch := []; Proto.body := [] |}.

Definition method_on (m : MessageType.t) : Method.t :=
  Method.new {| Proto.method_name := "Call"; Proto.http := no_http |}
    m m None None None.

Definition service_of (methods : dict Method.t) : Service.t :=
  Service.new {| Proto.service_name := "Library"; Proto.default_host := "";
                 Proto.oauth_scopes := [] |} methods None.

(** A service with a given default host. *)
Definition service_at (host : string) : Service.t :=
  Service.new {| Proto.service_name := "Library";
                 Proto.default_host := host;
                 Proto.oauth_scopes := [] |} [] None.

(** A method bound to GET, and one bound to POST. *)
Definition get_method (path : codepoints) : Method.t :=
  Method.new
    {| Proto.method_name := "GetItem";
       Proto.http := {| Proto.get := path; Proto.put := []; Proto.post := [];
                        Proto.delete := []; Proto.patch := [];
                        Proto.body := [] |} |}
    (message_in ["pkg"] "mod") (message_in ["pkg"] "mod") None None None.

Definition post_method (path body : codepoints) : Method.t :=
  Method.new
    {| Proto.method_name := "CreateItem";
       Proto.http := {| Proto.get := []; Proto.put := []; Proto.post := path;
                        Proto.delete := []; Proto.patch := [];
                        Proto.body := body |} |}
    (message_in ["pkg"] "mod") (message_in ["pkg"] "mod") None None None.

(** [\w] and [\d] up to code point 255, as the Unicode database has
    them: beyond ASCII, the letters, superscript digits and fractions of
    Latin-1. *)
Definition latin1_word (c : N) : bool :=
  ascii_word c
  || existsb (N.eqb c) [170; 178; 179; 181; 185; 186; 188; 189; 190]%N
  || ((192 <=? c) && (c <=? 255) && negb (N.eqb c 215) && negb (N.eqb c 247))%N.

Definition latin1_decimal (c : N) : bool := ascii_decimal c.

End Samples.

Import Samples.

(** * Properties *)

(** ** The order of strings *)

Section StringOrder.

Lemma str_lt_irrefl (s : string) : ~ String_as_OT.lt s s.
Proof. exact (@StrictOrder_Irreflexive _ _ String_as_OT.lt_strorder s). Qed.

Lemma str_lt_trans (a b c : string) :
  String_as_OT.lt a b -> String_as_OT.lt b c -> String_as_OT.lt a c.
Proof. exact (@StrictOrder_Transitive _ _ String_as_OT.lt_strorder a b c). Qed.

Lemma str_compare_refl (s : string) : str_compare s s = Eq.
Proof.
  unfold str_compare.
  destruct (String_as_OT.compare_spec s s) as [_ | H | H]; trivial;
    destruct (str_lt_irrefl s H).
Qed.

Lemma str_compare_eq (a b : string) : str_compare a b = Eq -> a = b.
Proof.
  unfold str_compare.
  destruct (String_as_OT.compare_spec a b); congruence.
Qed.

Lemma str_compare_lt_trans (a b c : string) :
  str_compare a b = Lt -> str_compare b c = Lt -> str_compare a c = Lt.
Proof. apply str_lt_trans. Qed.

Lemma str_compare_gt_lt (a b : string) :
  str_compare a b = Gt <-> str_compare b a = Lt.
Proof.
  unfold str_compare.
  destruct (String_as_OT.compare_spec a b) as [E | H | H];
    destruct (String_as_OT.compare_spec b a) as [E' | H' | H'];
    unfold String_as_OT.eq in *; subst; split; intro; try discriminate; try reflexivity; exfalso;
    first [ eapply str_lt_irrefl; eassumption
          | eapply str_lt_irrefl; eapply str_lt_trans; eassumption ].
Qed.

Lemma str_leb_refl (s : string) : str_leb s s = true.
Proof. unfold str_leb. now rewrite str_compare_refl. Qed.

Lemma str_leb_total (a b : string) : str_leb a b = false -> str_leb b a = true.
Proof.
  unfold str_leb. destruct (str_compare a b) eqn:E; try discriminate.
  apply str_compare_gt_lt in E. now rewrite E.
Qed.

Lemma str_leb_trans (a b c : string) :
  str_leb a b = true -> str_leb b c = true -> str_leb a c = true.
Proof.
  unfold str_leb.
  destruct (str_compare a b) eqn:Eab; try discriminate;
    destruct (str_compare b c) eqn:Ebc; try discriminate; intros _ _.
  - apply str_compare_eq in Eab, Ebc. subst. now rewrite str_compare_refl.
  - apply str_compare_eq in Eab. subst. now rewrite Ebc.
  - apply str_compare_eq in Ebc. subst. now rewrite Eab.
  - now rewrite (str_compare_lt_trans _ _ _ Eab Ebc).
Qed.

(** Comparing two strings that start alike compares what follows. *)
Lemma str_leb_cons (c d : ascii) (s t : string) :
  str_leb (String c s) (String d t) = true ->
  (N_of_ascii c <= N_of_ascii d)%N /\ (c = d -> str_leb s t = true).
Proof.
  unfold str_leb, str_compare. cbn [String_as_OT.compare].
  change (Ascii_as_OT.compare c d)
    with (N.compare (N_of_ascii c) (N_of_ascii d)).
  destruct (N.compare_spec (N_of_ascii c) (N_of_ascii d)) as [E | L | G].
  - intro H. split; [ lia | intros _; exact H ].
  - intros _. split; [ lia | intro; subst; lia ].
  - discriminate.
Qed.

End StringOrder.

(** ** Sets as lists of distinct members *)

Section Sets.

Context {A : Type} (eq_dec : forall x y : A, {x = y} + {x <> y}).

Lemma set_add_In (acc : list A) (x y : A) :
  In y (set_add eq_dec acc x) <-> In y acc \/ y = x.
Proof.
  unfold set_add. destruct (in_dec eq_dec x acc) as [Hin | Hout].
  - split; [ auto | intros [H | ->]; assumption ].
  - rewrite in_app_iff. cbn. intuition congruence.
Qed.

Lemma fold_set_add_In (l acc : list A) (y : A) :
  In y (fold_left (set_add eq_dec) l acc) <-> In y acc \/ In y l.
Proof.
  revert acc. induction l as [| x l IH]; intro acc; cbn.
  - tauto.
  - rewrite IH, set_add_In. intuition congruence.
Qed.

Lemma set_add_NoDup (acc : list A) (x : A) :
  NoDup acc -> NoDup (set_add eq_dec acc x).
Proof.
  intro H. unfold set_add. destruct (in_dec eq_dec x acc) as [Hin | Hout].
  - exact H.
  - apply NoDup_app; [ exact H | repeat constructor; apply in_nil | ].
    intros y Hy [-> | []]. exact (Hout Hy).
Qed.

End Sets.

(** ** The matcher only accepts texts of the pattern *)

Section Matcher.

Lemma keeps_refl (gs : list string) (c : caps) : keeps gs c c.
Proof. intros g _. reflexivity. Qed.

Lemma keeps_trans (gs1 gs2 : list string) (c1 c2 c3 : caps) :
  keeps gs1 c1 c2 -> keeps gs2 c2 c3 -> keeps (gs1 ++ gs2) c1 c3.
Proof.
  intros H1 H2 g Hg. rewrite in_app_iff in Hg.
  rewrite H2, H1; tauto.
Qed.

Lemma keeps_weaken (gs gs' : list string) (c c' : caps) :
  incl gs gs' -> keeps gs c c' -> keeps gs' c c'.
Proof. intros Hi H g Hg. apply H. intro. apply Hg. now apply Hi. Qed.

(** Names the text, the rest and the groups, and leaves the three facts
    about them to prove. *)
Ltac matched w s c :=
  exists w, s, c;
  split; [ try reflexivity; try (now rewrite app_assoc)
         | split; [ | split ] ].

Lemma rmatch_seq (total : nat) (r1 r2 : regex) (k : cont)
    (s : codepoints) (c : caps) :
  rmatch total (Seq r1 r2) k s c = rmatch total r1 (rmatch total r2 k) s c.
Proof. reflexivity. Qed.

Lemma rmatch_opt (total : nat) (r : regex) (k : cont)
    (s : codepoints) (c : caps) :
  rmatch total (Opt r) k s c = orelse (rmatch total r k s c) (k s c).
Proof. reflexivity. Qed.

Lemma rmatch_bol (total : nat) (k : cont) (s : codepoints) (c : caps) :
  rmatch total Bol k s c = if List.length s =? total then k s c else None.
Proof. reflexivity. Qed.

Lemma rmatch_chr (total : nat) (p : N -> bool) (k : cont)
    (x : N) (s : codepoints) (c : caps) :
  rmatch total (Chr p) k (x :: s) c = if p x then k s c else None.
Proof. reflexivity. Qed.

Lemma firstn_front (w rest : codepoints) :
  firstn (List.length (w ++ rest) - List.length rest) (w ++ rest) = w.
Proof.
  rewrite length_app, Nat.add_sub, firstn_app, Nat.sub_diag, firstn_all.
  cbn. apply app_nil_r.
Qed.

Lemma rmatch_star (total : nat) (r : regex) (k : cont)
    (s : codepoints) (c : caps) :
  rmatch total (Star r) k s c
  = star_loop (rmatch total r) k (List.length s) s c.
Proof. reflexivity. Qed.

Lemma rmatch_grp_eq (total : nat) (g : string) (r : regex) (k : cont)
    (s : codepoints) (c : caps) :
  rmatch total (Grp g r) k s c
  = rmatch total r
      (fun s' c' =>
         k s' ((g, firstn (List.length s - List.length s') s) :: c'))
      s c.
Proof. reflexivity. Qed.

Lemma star_loop_sound (r : regex) (m : cont -> cont) :
  sound_for r m ->
  forall n k s c a,
    star_loop m k n s c = Some a ->
    exists w s' c',
      s = w ++ s' /\ lang (Star r) w /\ k s' c' = Some a
      /\ keeps (names r) c c'.
Proof.
  intros Hm n k. induction n as [| n IH]; intros s c a H; cbn [star_loop] in H.
  - matched (@nil N) s c; [ constructor | exact H | apply keeps_refl ].
  - unfold orelse in H.
    destruct (m _ s c) as [a' |] eqn:E.
    + injection H as ->. apply Hm in E.
      destruct E as (w1 & s1 & c1 & -> & L1 & K1 & P1). cbn beta in K1.
      destruct (List.length s1 <? List.length (w1 ++ s1)); [ | discriminate ].
      apply IH in K1. destruct K1 as (w2 & s2 & c2 & -> & L2 & K2 & P2).
      matched (w1 ++ w2) s2 c2; [ now constructor | exact K2 | ].
      apply keeps_weaken with (names r ++ names r).
      * intros g Hg. apply in_app_iff in Hg. tauto.
      * eapply keeps_trans; eassumption.
    + matched (@nil N) s c; [ constructor | exact H | apply keeps_refl ].
Qed.

Lemma rmatch_sound (total : nat) (r : regex) : sound_for r (rmatch total r).
Proof.
  induction r as [| | p | r1 IH1 r2 IH2 | r1 IH1 r2 IH2 | r IH | g r IH];
    intros k s c a H; cbn [rmatch] in H.
  - matched (@nil N) s c; [ constructor | exact H | apply keeps_refl ].
  - destruct (List.length s =? total); [ | discriminate ].
    matched (@nil N) s c; [ constructor | exact H | apply keeps_refl ].
  - destruct s as [| x s]; [ discriminate | ].
    destruct (p x) eqn:Px; [ | discriminate ].
    matched [x] s c; [ now constructor | exact H | apply keeps_refl ].
  - apply IH1 in H. destruct H as (w1 & s1 & c1 & -> & L1 & K1 & P1).
    apply IH2 in K1. destruct K1 as (w2 & s2 & c2 & -> & L2 & K2 & P2).
    matched (w1 ++ w2) s2 c2; [ now constructor | exact K2 | ].
    eapply keeps_trans; eassumption.
  - unfold orelse in H. destruct (rmatch total r1 k s c) as [a' |] eqn:E.
    + injection H as ->. apply IH1 in E.
      destruct E as (w & s' & c' & -> & L & K & P).
      matched w s' c'; [ now apply lang_alt_l | exact K | ].
      eapply keeps_weaken; [ | exact P ]. cbn. apply incl_appl, incl_refl.
    + apply IH2 in H. destruct H as (w & s' & c' & -> & L & K & P).
      matched w s' c'; [ now apply lang_alt_r | exact K | ].
      eapply keeps_weaken; [ | exact P ]. cbn. apply incl_appr, incl_refl.
  - exact (star_loop_sound r _ IH _ _ _ _ _ H).
  - apply IH in H. destruct H as (w & s' & c' & -> & L & K & P).
    cbn beta in K.
    matched w s'
      ((g, firstn (List.length (w ++ s') - List.length s') (w ++ s')) :: c');
      [ now constructor | exact K | ].
    intros g' Hg'. cbn in Hg'. cbn [group].
    destruct (String.eqb_spec g' g) as [-> | N]; [ tauto | ].
    apply P. tauto.
Qed.

(** What a group records is the text its pattern matched. *)
Lemma rmatch_grp (total : nat) (g : string) (r : regex) (k : cont)
    (s : codepoints) (c : caps) (a : answer) :
  rmatch total (Grp g r) k s c = Some a ->
  exists w s' c',
    s = w ++ s' /\ lang r w /\ k s' ((g, w) :: c') = Some a
    /\ keeps (names r) c c'.
Proof.
  cbn [rmatch]. intro H. apply rmatch_sound in H.
  destruct H as (w & s' & c' & -> & L & K & P).
  exists w, s', c'. repeat split; trivial.
  now rewrite firstn_front in K.
Qed.

Lemma lang_lit1 (x : ascii) (w : codepoints) :
  lang (Lit1 x) w -> w = [code x].
Proof.
  intro H. inversion H as [| | p a Pa | | | | |  |]; subst.
  apply N.eqb_eq in Pa. now subst.
Qed.

Lemma lang_star_chr (p : N -> bool) (w : codepoints) :
  lang (Star (Chr p)) w -> forallb p w = true.
Proof.
  intro H. remember (Star (Chr p)) as r eqn:Er.
  induction H as [| | | | | | r' | r' w1 w2 H1 _ H2 IH2 |]; try discriminate.
  - reflexivity.
  - injection Er as ->. inversion H1; subst. cbn.
    rewrite IH2 by reflexivity. now rewrite H0.
Qed.

Lemma lang_plus_chr (p : N -> bool) (w : codepoints) :
  lang (Plus (Chr p)) w ->
  exists x w', w = x :: w' /\ p x = true /\ forallb p w' = true.
Proof.
  intro H. inversion H as [| | | r1 r2 w1 w2 L1 L2 | | | | |]; subst.
  inversion L1 as [| | q x Px | | | | | |]; subst.
  apply lang_star_chr in L2. exists x, w2. auto.
Qed.

(** Iteration cannot fail in front of a continuation that never fails. *)
Lemma star_loop_total (m : cont -> cont) (k : cont) :
  (forall s c, k s c <> None) ->
  forall n s c, star_loop m k n s c <> None.
Proof.
  intros Hk n. induction n as [| n IH]; intros s c; cbn [star_loop].
  - apply Hk.
  - unfold orelse. destruct (m _ s c); [ discriminate | apply Hk ].
Qed.

(** Iteration over a character class: what it returns, the continuation
    returned after some run of the class, ... *)
Lemma star_loop_chr_sound (total : nat) (p : N -> bool) (k : cont)
    (c : caps) (a : answer) :
  forall n s,
    star_loop (rmatch total (Chr p)) k n s c = Some a ->
    exists w s', s = w ++ s' /\ forallb p w = true /\ k s' c = Some a.
Proof.
  induction n as [| n IH]; intros s H; cbn [star_loop] in H.
  - exists [], s. auto.
  - unfold orelse in H.
    destruct (rmatch total (Chr p) _ s c) as [a' |] eqn:E.
    + injection H as ->. destruct s as [| x t]; [ discriminate | ].
      rewrite rmatch_chr in E. destruct (p x) eqn:Px; [ | discriminate ].
      destruct (List.length t <? _); [ | discriminate ].
      apply IH in E. destruct E as (w & s' & -> & Hw & K).
      exists (x :: w), s'. cbn. rewrite Px. auto.
    + exists [], s. auto.
Qed.

(** ... and the longest such run is tried first: where the continuation
    accepts after some run, the iteration returns what the continuation
    returns after that run or a longer one. *)
Lemma star_loop_greedy (total : nat) (p : N -> bool) (k : cont)
    (c : caps) (s1 : codepoints) (a1 : answer) :
  k s1 c = Some a1 ->
  forall w1 n,
    forallb p w1 = true -> List.length (w1 ++ s1) <= n ->
    exists a' w2 s2,
      star_loop (rmatch total (Chr p)) k n (w1 ++ s1) c = Some a'
      /\ w1 ++ s1 = w2 ++ s2 /\ forallb p w2 = true
      /\ List.length w1 <= List.length w2 /\ k s2 c = Some a'.
Proof.
  intros Hk. induction w1 as [| x w1 IH]; intros n Hw Hn.
  - cbn [app]. destruct (star_loop (rmatch total (Chr p)) k n s1 c)
      as [a' |] eqn:E.
    + apply star_loop_chr_sound in E. destruct E as (w & s' & -> & Pw & K).
      exists a', w, s'. repeat split; trivial. cbn. lia.
    + destruct n as [| n]; cbn [star_loop] in E; [ congruence | ].
      unfold orelse in E. destruct (rmatch total (Chr p) _ s1 c);
        congruence.
  - cbn [forallb] in Hw. apply andb_prop in Hw. destruct Hw as [Px Hw].
    cbn [app List.length] in *. destruct n as [| n]; [ lia | ].
    destruct (IH n Hw) as (a' & w2 & s2 & E & Es & Pw & Hl & K); [ lia | ].
    exists a', (x :: w2), s2. cbn [star_loop]. rewrite rmatch_chr, Px, E.
    assert (Hlt : (List.length (w1 ++ s1) <? List.length (x :: w1 ++ s1))
                  = true) by (apply Nat.ltb_lt; cbn [List.length]; lia).
    rewrite Hlt. cbn. rewrite Px, Es. repeat split; trivial. lia.
Qed.

(** *** A match reads the character classes at the text's code points only *)

Lemma star_loop_same (s0 : codepoints) (m m' : cont -> cont) :
  (forall k k' s c,
      incl s s0 -> same_cont s0 k k' -> m k s c = m' k' s c) ->
  forall n k k' s c,
    incl s s0 -> same_cont s0 k k' ->
    star_loop m k n s c = star_loop m' k' n s c.
Proof.
  intros Hm. induction n as [| n IH]; intros k k' s c Hs Hk;
    cbn [star_loop].
  - now apply Hk.
  - rewrite (Hk s c Hs). f_equal. apply Hm; trivial.
    intros s' c' Hs'. destruct (List.length s' <? List.length s); trivial.
    now apply IH.
Qed.

Lemma rmatch_same (s0 : codepoints) (total : nat) (r r' : regex) :
  same_on s0 r r' ->
  forall k k' s c,
    incl s s0 -> same_cont s0 k k' ->
    rmatch total r k s c = rmatch total r' k' s c.
Proof.
  induction 1 as [| | p q Hpq | r1 r2 r1' r2' _ IH1 _ IH2
                  | r1 r2 r1' r2' _ IH1 _ IH2 | r r' _ IH | g r r' _ IH];
    intros k k' s c Hs Hk; cbn [rmatch].
  - now apply Hk.
  - destruct (List.length s =? total); [ now apply Hk | reflexivity ].
  - destruct s as [| x s]; trivial.
    rewrite (Hpq x) by (apply Hs; now left).
    destruct (q x); trivial. apply Hk. intros y Hy. apply Hs. now right.
  - apply IH1; trivial. intros s' c' Hs'. now apply IH2.
  - rewrite (IH1 k k' s c), (IH2 k k' s c); trivial.
  - apply (star_loop_same s0); trivial.
  - apply IH; trivial. intros s' c' Hs'. now apply Hk.
Qed.

Lemma match_here_same (s0 : codepoints) (total : nat) (r r' : regex)
    (s : codepoints) :
  same_on s0 r r' -> incl s s0 ->
  match_here total r s = match_here total r' s.
Proof.
  intros Hr Hs. unfold match_here. apply rmatch_same with s0; trivial.
  intros s' c' _. reflexivity.
Qed.

Lemma match_here_rest (total : nat) (r : regex) (s s' : codepoints)
    (c : caps) :
  match_here total r s = Some (s', c) -> incl s' s.
Proof.
  intro H. apply rmatch_sound in H.
  destruct H as (w & s1 & c1 & -> & _ & K & _).
  unfold accept in K. injection K as <- _.
  apply incl_appr, incl_refl.
Qed.

Lemma findall_from_same (s0 : codepoints) (total : nat) (r r' : regex) :
  same_on s0 r r' ->
  forall n s,
    incl s s0 -> findall_from total r n s = findall_from total r' n s.
Proof.
  intros Hr. induction n as [n IH] using lt_wf_ind. intros s Hs.
  destruct n as [| n]; trivial. cbn [findall_from].
  rewrite (match_here_same s0 total r r' s Hr Hs).
  assert (Ht : forall x t, s = x :: t -> incl t s0).
  { intros x t -> y Hy. apply Hs. now right. }
  destruct (match_here total r' s) as [[s' c] |] eqn:E.
  - apply match_here_rest in E.
    destruct (List.length s' <? List.length s).
    + f_equal. apply IH; [ lia | ]. intros y Hy. auto.
    + f_equal. destruct s as [| x t]; trivial.
      apply IH; [ lia | ]. now apply (Ht x).
  - destruct s as [| x t]; trivial. apply IH; [ lia | ]. now apply (Ht x).
Qed.

(** [re.findall] depends on the classes of its pattern at the code points
    of the text alone. *)
Lemma findall_same (r r' : regex) (s : codepoints) :
  same_on s r r' -> findall r s = findall r' s.
Proof.
  intro Hr. unfold findall. apply findall_from_same with s; trivial.
  apply incl_refl.
Qed.

End Matcher.

(** ** naming.py: the identity of an API *)

Section NamingFacts.

Import GenericPath Naming.

(** A list that holds a file has a package in its set. *)
Lemma proto_packages_inhabited (fds : list Proto.FileDescriptorProto) :
  fds <> [] -> proto_packages fds <> [].
Proof.
  destruct fds as [| fd fds]; [ congruence | ]. intros _ E.
  assert (H : In (Proto.package fd) (proto_packages (fd :: fds))).
  { unfold proto_packages. apply fold_set_add_In. right. now left. }
  rewrite E in H. destruct H.
Qed.

(** [os.path.commonprefix] subscripts what it is given: a set with a
    member raises. *)
Lemma commonprefix_set (members : list string) :
  members <> [] -> commonprefix (PySet members) = Raise not_subscriptable.
Proof. destruct members; [ congruence | reflexivity ]. Qed.

Lemma root_package_nonempty (fds : list Proto.FileDescriptorProto) :
  fds <> [] -> root_package fds = Raise not_subscriptable.
Proof.
  intro H. apply commonprefix_set. now apply proto_packages_inhabited.
Qed.

(** [__init__] stops at line 70 for every list that holds a file ... *)
Lemma init_nonempty (fds : list Proto.FileDescriptorProto) :
  fds <> [] -> init fds = Raise not_subscriptable.
Proof.
  intro H. unfold init, package_info.
  now rewrite (root_package_nonempty fds H).
Qed.

(** ... and for the empty list the pattern finds nothing in the empty
    root package. *)
Lemma init_empty : init [] = Raise (AttributeError "groupdict").
Proof. reflexivity. Qed.

(** After the two loops every attribute is set, to the metadata record's
    value where that is true and to the package's otherwise. *)
Lemma merge_field (p m : NamingBase) (rest : list NamingBase) (k : field) :
  merge blank p (m :: rest) k
  = Some (if truthy (field_value m k) then field_value m k
          else field_value p k).
Proof.
  destruct k;
    cbv [merge write_all write_truthy asdict dataclasses_fields map fold_left
         fst snd field_value setattr field_eqb blank];
    repeat match goal with
           | |- context [truthy ?v] => destruct (truthy v)
           end;
    reflexivity.
Qed.

Lemma merge_no_metadata (p : NamingBase) (k : field) :
  merge blank p [] k = Some (field_value p k).
Proof. destruct k; reflexivity. Qed.




(** *** The version group never takes part *)

Lemma name_char_ns_char (x : N) : name_char x = true -> ns_char x = true.
Proof. unfold ns_char, name_char. now intros ->. Qed.

Lemma forallb_name_ns (w : codepoints) :
  forallb name_char w = true -> forallb ns_char w = true.
Proof.
  rewrite !forallb_forall. intros H x Hx. apply name_char_ns_char. auto.
Qed.

(** The rest of the pattern matches whatever starts like a name. *)
Lemma after_namespace_total (total : nat) (x : N) (s : codepoints)
    (c : caps) :
  name_char x = true ->
  rmatch total after_namespace accept (x :: s) c <> None.
Proof.
  intro Px. unfold after_namespace, name_group, Plus.
  rewrite rmatch_seq, rmatch_grp_eq, rmatch_seq, rmatch_chr, Px, rmatch_star.
  apply star_loop_total. intros s' c'. rewrite rmatch_opt. unfold orelse.
  destruct (rmatch total _ accept s' _); discriminate.
Qed.

(** When it records a version, the text is a name, a dot, and a [v]. *)
Lemma after_namespace_version (total : nat) (s : codepoints) (c : caps)
    (a : answer) :
  rmatch total after_namespace accept s c = Some a ->
  group "version" c = None ->
  group "version" (snd a) <> None ->
  exists r tail,
    s = r ++ (code ".") :: (code "v") :: tail /\ r <> []
    /\ forallb name_char r = true.
Proof.
  unfold after_namespace, name_group. rewrite rmatch_seq.
  intros H Hc Ha. apply rmatch_grp in H.
  destruct H as (w & s' & c' & -> & L & K & P).
  apply lang_plus_chr in L. destruct L as (x & w' & -> & Px & Pw).
  rewrite rmatch_opt in K. unfold orelse in K.
  destruct (rmatch total (Lit1 "." +> version_group) accept s' _)
    as [a' |] eqn:E.
  - apply rmatch_sound in E. destruct E as (w2 & s2 & _ & -> & L & _).
    inversion L as [| | | r1 r2 d v L1 L2 | | | | |]; subst.
    apply lang_lit1 in L1. subst d.
    inversion L2 as [| | | | | | | | g r v' L3]; subst.
    unfold version_re in L3.
    inversion L3 as [| | | r1 r2 d v' L4 _ | | | | |]; subst.
    apply lang_lit1 in L4. subst d.
    exists (x :: w'), (v' ++ s2). split; [ | split ].
    + reflexivity.
    + discriminate.
    + cbn. now rewrite Px.
  - unfold accept in K. injection K as <-. cbn in Ha.
    rewrite P in Ha by (cbn; tauto). contradiction.
Qed.

(** The namespace group is tried with the longest text first, and what
    follows a dot and a [v] would be read as a name: no match that the
    pattern returns holds a version. *)
Lemma namespace_run_no_version (total : nat) (k1 : cont) (s0 : codepoints)
    (a : answer) :
  (forall s2, k1 s2 [] = Some a ->
              group "version" (snd a) <> None ->
              exists r tail,
                s2 = (code ".") :: r ++ (code ".") :: (code "v") :: tail
                /\ forallb ns_char r = true) ->
  (forall tail, k1 ((code ".") :: (code "v") :: tail) [] <> None) ->
  star_loop (rmatch total (Chr ns_char)) k1 (List.length s0) s0 [] = Some a ->
  group "version" (snd a) = None.
Proof.
  intros P1 P2 E.
  destruct (group "version" (snd a)) as [v |] eqn:G; trivial. exfalso.
  assert (Hup : forall d w2 s2,
             List.length s0 - List.length w2 <= d ->
             s0 = w2 ++ s2 -> forallb ns_char w2 = true ->
             k1 s2 [] = Some a -> False).
  { induction d as [| d IHd]; intros w2 s2 Hd Es Pw K;
      destruct (P1 s2 K) as (r & tail & -> & Pr); try congruence;
      (destruct (k1 ((code ".") :: (code "v") :: tail) []) as [a1 |] eqn:K1;
       [ | now apply P2 in K1 ]);
      (destruct (star_loop_greedy total ns_char k1 [] _ a1 K1
                   (w2 ++ (code ".") :: r) (List.length s0))
         as (a' & w3 & s3 & E' & Es' & Pw' & Hl & K');
       [ rewrite forallb_app, Pw; cbn; now rewrite Pr
       | rewrite Es, <- app_assoc; cbn; apply Nat.le_refl
       | ]);
      rewrite <- app_assoc in E'; cbn [app] in E'; rewrite <- Es in E';
      rewrite E in E'; injection E' as <-;
      rewrite <- app_assoc in Es'; cbn [app] in Es'; rewrite <- Es in Es';
      rewrite length_app in Hl; cbn [List.length] in Hl;
      assert (Hb : List.length w3 <= List.length s0)
        by (rewrite Es', length_app; lia).
    - lia.
    - apply (IHd w3 s3); trivial. lia. }
  apply star_loop_chr_sound in E. destruct E as (w & s' & Es & Pw & K).
  exact (Hup _ w s' (Nat.le_refl _) Es Pw K).
Qed.

Lemma match_here_no_version (total : nat) (s : codepoints) (a : answer) :
  match_here total naming_pattern s = Some a ->
  group "version" (snd a) = None.
Proof.
  unfold match_here, naming_pattern.
  change (name_group +> Opt (Lit1 "." +> version_group))%re
    with after_namespace.
  rewrite rmatch_seq, rmatch_bol.
  destruct (List.length s =? total); [ | discriminate ].
  rewrite rmatch_seq, rmatch_opt. unfold orelse.
  destruct (rmatch total namespace_group _ s []) as [a' |] eqn:E.
  - intro H. injection H as ->.
    unfold namespace_group, Plus in E.
    rewrite rmatch_grp_eq, !rmatch_seq in E.
    destruct s as [| x s0]; [ discriminate | ].
    rewrite rmatch_chr in E. destruct (ns_char x); [ | discriminate ].
    rewrite rmatch_star in E.
    eapply namespace_run_no_version; [ | | exact E ].
    + intros s2 K Ha. destruct s2 as [| y s3]; [ discriminate | ].
      unfold Lit1, is_char in K. rewrite rmatch_chr in K.
      destruct (N.eqb_spec (code ".") y) as [<- | N]; [ | discriminate ].
      apply after_namespace_version in K; trivial.
      destruct K as (r & tail & -> & _ & Pr).
      exists r, tail. split; [ reflexivity | now apply forallb_name_ns ].
    + intros tail. unfold Lit1, is_char. rewrite rmatch_chr, N.eqb_refl.
      now apply after_namespace_total.
  - intro H.
    destruct (group "version" (snd a)) as [v |] eqn:G; trivial. exfalso.
    apply after_namespace_version in H; [ | reflexivity | congruence ].
    destruct H as (r & tail & -> & Hr & Pr).
    destruct r as [| x r]; [ congruence | ].
    cbn [forallb] in Pr. apply andb_prop in Pr. destruct Pr as [Px Pr].
    unfold namespace_group, Plus in E.
    rewrite rmatch_grp_eq, !rmatch_seq in E. cbn [app] in E.
    rewrite rmatch_chr, (name_char_ns_char x Px), rmatch_star in E.
    match type of E with
    | star_loop _ ?k1 _ _ _ = None =>
        destruct (k1 ((code ".") :: (code "v") :: tail) []) as [a1 |] eqn:K1
    end.
    + destruct (star_loop_greedy total ns_char _ [] _ a1 K1 r
                  (List.length (r ++ (code ".") :: (code "v") :: tail)))
        as (a' & _ & _ & E' & _);
        [ now apply forallb_name_ns | apply Nat.le_refl | ].
      rewrite E' in E. discriminate.
    + revert K1. unfold Lit1, is_char. rewrite rmatch_chr, N.eqb_refl.
      now apply after_namespace_total.
Qed.

Lemma search_from_no_version (total : nat) (s : codepoints) (a : answer) :
  search_from total naming_pattern s = Some a ->
  group "version" (snd a) = None.
Proof.
  induction s as [| x s IH]; cbn [search_from];
    destruct (match_here total naming_pattern _) eqn:E;
    try discriminate; trivial;
    intro H; injection H as ->; eapply match_here_no_version; eassumption.
Qed.

(** Whatever the text, a match of the naming pattern has no version:
    [package_info.version] is always [None]. *)
Lemma version_never_captured (text : string) (m : caps) :
  search naming_pattern text = Some m -> getgroup "version" m = None.
Proof.
  unfold search, getgroup.
  destruct (search_from _ naming_pattern (codes text))
    as [a |] eqn:E; [ | discriminate ].
  cbn [option_map]. intro H. injection H as <-.
  now rewrite (search_from_no_version _ _ _ E).
Qed.

(** Every file's metadata record enters [metadata_info], empty or not. *)
Lemma metadata_info_collects (fds : list Proto.FileDescriptorProto)
    (fd : Proto.FileDescriptorProto) :
  In fd fds -> In (metadata_naming fd) (metadata_info fds).
Proof.
  unfold metadata_info. cbn [NamingBase_bool].
  intro H.
  assert (G : forall l acc,
             In (metadata_naming fd) acc \/ In fd l ->
             In (metadata_naming fd)
                (fold_left
                   (fun acc fd => set_add NamingBase_eq_dec acc
                                    (metadata_naming fd)) l acc)).
  { induction l as [| y l IH]; intros acc [Ha | Hl]; cbn; trivial.
    - destruct Hl.
    - apply IH. left. apply set_add_In. now left.
    - apply IH. destruct Hl as [-> | Hl]; [ left | now right ].
      apply set_add_In. now right. }
  apply G. now right.
Qed.

Lemma of_codes_app (a b : codepoints) :
  of_codes (a ++ b) = (of_codes a ++ of_codes b)%string.
Proof.
  unfold of_codes. induction a as [| x a IH]; cbn; [ | rewrite IH ];
    reflexivity.
Qed.

(** *** The groups of a match *)

(** After the namespace, the name group holds a non-empty name and the
    namespace group is left as it was. *)
Lemma after_namespace_groups (total : nat) (s : codepoints) (c : caps)
    (a : answer) :
  rmatch total after_namespace accept s c = Some a ->
  (exists x w, group "name" (snd a) = Some (x :: w)
               /\ name_char x = true /\ forallb name_char w = true)
  /\ group "namespace" (snd a) = group "namespace" c.
Proof.
  unfold after_namespace, name_group. rewrite rmatch_seq. intro H.
  apply rmatch_grp in H. destruct H as (w & s' & c' & -> & L & K & P).
  apply lang_plus_chr in L. destruct L as (x & w' & -> & Px & Pw).
  apply rmatch_sound in K. destruct K as (_ & s2 & c2 & _ & _ & K & P2).
  unfold accept in K. injection K as <-. cbn [snd]. split.
  - exists x, w'. split; [ | auto ].
    rewrite P2 by (cbn; intuition discriminate). reflexivity.
  - rewrite P2 by (cbn; intuition discriminate). cbn.
    apply P. cbn. tauto.
Qed.

(** The groups of a match: the name is never empty, and a namespace, if
    there is one, is a non-empty text followed by a dot. *)
Lemma match_here_groups (total : nat) (s : codepoints) (a : answer) :
  match_here total naming_pattern s = Some a ->
  (exists x w, group "name" (snd a) = Some (x :: w)
               /\ name_char x = true /\ forallb name_char w = true)
  /\ (forall ns, group "namespace" (snd a) = Some ns ->
                 exists w, ns = w ++ [(code ".")] /\ w <> []).
Proof.
  unfold match_here, naming_pattern.
  change (name_group +> Opt (Lit1 "." +> version_group))%re
    with after_namespace.
  rewrite rmatch_seq, rmatch_bol.
  destruct (List.length s =? total); [ | discriminate ].
  rewrite rmatch_seq, rmatch_opt. unfold orelse.
  destruct (rmatch total namespace_group _ s []) as [a' |] eqn:E.
  - intro H. injection H as ->. unfold namespace_group in E.
    apply rmatch_grp in E. destruct E as (w & s' & c' & -> & L & K & _).
    apply after_namespace_groups in K. destruct K as [Hn Hs]. split; trivial.
    intros ns Hns. rewrite Hs in Hns. cbn in Hns. injection Hns as <-.
    inversion L as [| | | r1 r2 w1 w2 L1 L2 | | | | |]; subst.
    apply lang_lit1 in L2. subst w2.
    apply lang_plus_chr in L1. destruct L1 as (x & w' & -> & _).
    exists (x :: w'). split; [ reflexivity | discriminate ].
  - intro H. apply after_namespace_groups in H. destruct H as [Hn Hs].
    split; trivial. intros ns Hns. rewrite Hs in Hns. discriminate.
Qed.

Lemma search_groups (text : string) (m : caps) :
  search naming_pattern text = Some m ->
  (exists x w, getgroup "name" m = Some (String x w))
  /\ (forall ns, getgroup "namespace" m = Some ns ->
                 exists w, ns = (w ++ ".")%string).
Proof.
  unfold search, getgroup.
  destruct (search_from _ naming_pattern (codes text))
    as [a |] eqn:E; [ | discriminate ].
  cbn [option_map]. intro H. injection H as <-.
  assert (G : exists total s, match_here total naming_pattern s = Some a).
  { revert E. generalize (List.length (codes text)).
    intro total. induction (codes text) as [| x s IH];
      cbn [search_from];
      destruct (match_here total naming_pattern _) eqn:E';
      intro H; try discriminate; eauto.
    - injection H as ->. eauto.
    - injection H as ->. eauto. }
  destruct G as (total & s & G). apply match_here_groups in G.
  destruct G as [(x & w & -> & _) Hs]. split.
  - exists (ascii_of_N x), (of_codes w). reflexivity.
  - intros ns Hns. destruct (group "namespace" (snd a)) as [l |];
      [ | discriminate ].
    destruct (Hs l eq_refl) as (w' & -> & _).
    cbn [option_map] in Hns. injection Hns as <-.
    exists (of_codes w'). apply of_codes_app.
Qed.

Lemma split_nonempty (sep : ascii) (s : string) : split sep s <> [].
Proof.
  destruct s as [| c s]; cbn; [ discriminate | ].
  destruct (Ascii.eqb c sep); [ discriminate | ].
  destruct (split sep s); discriminate.
Qed.

(** Splitting a text that ends with the separator gives an empty last
    piece. *)
Lemma split_trailing (sep : ascii) (s : string) :
  split sep (s ++ String sep EmptyString)%string
  = split sep s ++ [EmptyString].
Proof.
  induction s as [| c s IH]; cbn.
  - now rewrite Ascii.eqb_refl.
  - destruct (Ascii.eqb c sep); rewrite IH; [ reflexivity | ].
    pose proof (split_nonempty sep s).
    destruct (split sep s); [ congruence | reflexivity ].
Qed.

Lemma ascii_upper_not_lower (x : ascii) : is_lower (ascii_upper x) = false.
Proof.
  destruct x as [b0 b1 b2 b3 b4 b5 b6 b7];
    destruct b0, b1, b2, b3, b4, b5, b6, b7; reflexivity.
Qed.

Lemma ascii_lower_not_upper (x : ascii) : is_upper (ascii_lower x) = false.
Proof.
  destruct x as [b0 b1 b2 b3 b4 b5 b6 b7];
    destruct b0, b1, b2, b3, b4, b5, b6, b7; reflexivity.
Qed.

(** The fields of [package_info], whatever the root package. *)
Lemma split_package_fields (root : string) (p : NamingBase) :
  split_package root = Ok p ->
  version p = VNone
  /\ product_url p = VStr ""
  /\ product_name p = name p
  /\ (exists x n, name p = VStr (String x n) /\ is_lower x = false)
  /\ (exists l, l <> [] /\ namespace p = VList (l ++ [""])).
Proof.
  unfold split_package, groupdict, make_package_info, method.
  destruct (search naming_pattern root) as [m |] eqn:Hm; cbn [bind];
    [ | discriminate ].
  destruct (search_groups _ _ Hm) as [(x & w & Hn) Hs]. rewrite Hn.
  cbn [bind]. destruct (getgroup "namespace" m) as [ns |] eqn:Hns;
    cbn [bind]; [ | discriminate ].
  intro H. injection H as <-. cbn.
  split; [ now rewrite (version_never_captured _ _ Hm) | ]. repeat split.
  - exists (ascii_upper x), (map_str ascii_lower w). split; [ reflexivity | ].
    apply ascii_upper_not_lower.
  - destruct (Hs ns eq_refl) as (w' & ->).
    exists (map capitalize (split "." w')). split.
    + pose proof (split_nonempty "." w'). destruct (split "." w');
        [ congruence | discriminate ].
    + rewrite split_trailing, map_app. reflexivity.
Qed.


(** What [resolve] writes, when it returns. *)
Lemma resolve_field (fds : list Proto.FileDescriptorProto)
    (p : NamingBase) (self : Naming) (k : field) :
  resolve fds p = Ok self ->
  self k
  = Some match metadata_info fds with
         | [] => field_value p k
         | m :: _ => if truthy (field_value m k) then field_value m k
                     else field_value p k
         end.
Proof.
  unfold resolve.
  destruct (negb (truthy (version p)) && _); [ discriminate | ].
  destruct (1 <? List.length (metadata_info fds)); [ discriminate | ].
  intro H. injection H as <-.
  destruct (metadata_info fds) as [| m rest].
  - apply merge_no_metadata.
  - apply merge_field.
Qed.

(** The version check of lines 92 to 94. *)
Lemma resolve_ambiguous (fds : list Proto.FileDescriptorProto)
    (p : NamingBase) :
  truthy (version p) = false ->
  (1 < List.length (proto_packages fds) ->
   resolve fds p = Raise ambiguous_version)
  /\ (List.length (proto_packages fds) <= 1 ->
      resolve fds p <> Raise ambiguous_version).
Proof.
  intro Hv. unfold resolve. rewrite Hv. cbn [negb andb]. split; intro H.
  - apply Nat.ltb_lt in H. now rewrite H.
  - apply Nat.ltb_ge in H. rewrite H.
    destruct (1 <? List.length (metadata_info fds)); discriminate.
Qed.

End NamingFacts.

Section NamingClaims.

Import GenericPath Naming.

(** C1.  The two loops at the end of [__init__], lines 125 to 130, give
    every attribute the metadata record's value where that value is true
    and the package's otherwise, as the claim has it; but no run of
    [__init__] gets there.  For the file of package [example.library.v1]
    with the product name [Acme Library] it raises at line 70, where
    [os.path.commonprefix] subscripts the set of packages. *)
Theorem override_precedence_unreached :
  init [file_of "example.library.v1" acme] = Raise not_subscriptable
  /\ (forall fds self, init fds <> Ok self)
  /\ (forall fds p self k,
        resolve fds p = Ok self ->
        self k
        = Some match metadata_info fds with
               | [] => field_value p k
               | m :: _ => if truthy (field_value m k) then field_value m k
                           else field_value p k
               end).
Proof.
  split; [ reflexivity | ]. split.
  - intros [| fd fds] self.
    + rewrite init_empty. discriminate.
    + rewrite init_nonempty; discriminate.
  - intros fds p self k. apply resolve_field.
Qed.

(** C2.  Two files of one package, the first with an annotation and the
    second without: [__init__] raises at line 70, where the claim has it
    return.  Past that line it would raise as well: a [NamingBase] has no
    [__bool__], so the loop of lines 101 to 112 collects the record of the
    second file too, empty as it is, and the check of line 116 sees two
    records. *)
Theorem single_annotation_unresolved :
  init annotated_once = Raise not_subscriptable
  /\ metadata_info annotated_once
     = [metadata_naming (file_of "example.library.v1" acme);
        metadata_naming (file_of "example.library.v1" Proto.no_metadata)]
  /\ (forall p, resolve annotated_once p = Raise conflicting_metadata).
Proof.
  split; [ reflexivity | ]. split; [ reflexivity | ].
  intro p. unfold resolve.
  change (proto_packages annotated_once) with ["example.library.v1"].
  cbn [List.length Nat.ltb Nat.leb]. rewrite andb_false_r. reflexivity.
Qed.

(** C3.  No root package comes out of line 70: the set of packages goes
    to [os.path.commonprefix], which subscripts it, and a set with a
    member raises.  For the packages [a.foobar] and [a.foobaz] the claim
    has the root package [a]. *)
Theorem root_package_raises_on_set :
  root_package [file_of "a.foobar" Proto.no_metadata;
                file_of "a.foobaz" Proto.no_metadata]
  = Raise not_subscriptable
  /\ Spec.root_package_by_segments ["a.foobar"; "a.foobaz"] = "a"
  /\ (forall fds, fds <> [] -> root_package fds = Raise not_subscriptable)
  /\ root_package [] = Ok "".
Proof.
  split; [ reflexivity | ]. split; [ reflexivity | ].
  split; [ apply root_package_nonempty | reflexivity ].
Qed.

(** Handed a list, the routine compares character by character. *)
Example commonprefix_by_character :
  commonprefix (PyList ["a.foobar"; "a.foobaz"]) = Ok "a.fooba".
Proof. reflexivity. Qed.

(** C4.  With more than one distinct package [__init__] raises, and it
    does so at line 70, before it builds anything; with exactly one
    package it does not raise the error of the version check.  The check
    itself, lines 92 to 94: the pattern never records a version, so
    whatever [package_info] the pattern yields, the check raises with
    more than one package and passes with one. *)
Theorem ambiguous_version_raises (fds : list Proto.FileDescriptorProto) :
  (1 < List.length (proto_packages fds) ->
   init fds = Raise not_subscriptable)
  /\ (List.length (proto_packages fds) = 1 ->
      init fds = Raise not_subscriptable
      /\ init fds <> Raise ambiguous_version)
  /\ (forall root p,
        split_package root = Ok p ->
        (1 < List.length (proto_packages fds) ->
         resolve fds p = Raise ambiguous_version)
        /\ (List.length (proto_packages fds) <= 1 ->
            resolve fds p <> Raise ambiguous_version)).
Proof.
  assert (Hne : 0 < List.length (proto_packages fds) -> fds <> [])
    by (intros H ->; cbn in H; lia).
  split; [ | split ].
  - intro H. apply init_nonempty, Hne. lia.
  - intro H. rewrite init_nonempty by (apply Hne; lia).
    split; [ reflexivity | discriminate ].
  - intros root p Hp. apply resolve_ambiguous.
    destruct (split_package_fields root p Hp) as (-> & _). reflexivity.
Qed.

(** C8.  [Naming.__bool__] asks the tuple of fields for [keys] and raises
    for every instance; a [NamingBase] is true even with every field
    empty. *)
Theorem Naming_bool_raises (self : Naming) :
  Naming_bool self = Raise (AttributeError "keys")
  /\ NamingBase_bool
       {| name := VStr ""; namespace := VTuple []; version := VStr "";
          product_name := VStr ""; product_url := VStr "" |} = true.
Proof. split; reflexivity. Qed.


End NamingClaims.

(** ** naming.py: [__init__] and its stages *)

Section Construction.

Import GenericPath Naming.



(** X3.  [__init__] returns for no list of files: for the empty list the
    pattern finds nothing and [None.groupdict] raises, and for every
    other list [os.path.commonprefix] raises on the set of packages. *)
Theorem init_never_returns (fds : list Proto.FileDescriptorProto) :
  (init fds = Raise (AttributeError "groupdict") <-> fds = [])
  /\ (init fds = Raise not_subscriptable <-> fds <> []).
Proof.
  destruct fds as [| fd fds].
  - rewrite init_empty. split; split; try congruence; discriminate.
  - rewrite init_nonempty by discriminate.
    split; split; try discriminate; trivial.
Qed.

End Construction.
(** ** wrappers.py: equality of entities *)

Section Equality.

Lemma dec_eqb_refl {A : Type} (eq_dec : forall x y : A, {x = y} + {x <> y})
    (x : A) :
  dec_eqb eq_dec x x = true.
Proof. unfold dec_eqb. destruct (eq_dec x x); congruence. Qed.

Lemma option_eqb_refl {V : Type} (eqb : V -> V -> bool) (x : option V) :
  (forall v, eqb v v = true) -> option_eqb eqb x x = true.
Proof. intro H. destruct x; cbn; auto. Qed.

Lemma list_eqb_refl {V : Type} (eqb : V -> V -> bool) (l : list V) :
  (forall v, eqb v v = true) -> list_eqb eqb l l = true.
Proof.
  intro H. induction l as [| x l IH]; cbn; trivial.
  now rewrite H, IH.
Qed.

Lemma dict_eqb_refl {V : Type} (eqb : V -> V -> bool) (d : dict V) :
  (forall v, eqb v v = true) -> dict_eqb eqb d d = true.
Proof.
  intro H. unfold dict_eqb. apply forallb_forall.
  intros k _. now apply option_eqb_refl.
Qed.

Lemma Metadata_eqb_refl (m : Metadata.t) : Metadata.eqb m m = true.
Proof. apply dec_eqb_refl. Qed.

Lemma Field_eqb_refl (f : Field.t) : Field.eqb f f = true.
Proof.
  unfold Field.eqb. now rewrite dec_eqb_refl, Metadata_eqb_refl.
Qed.

Lemma MessageType_eqb_refl (m : MessageType.t) : MessageType.eqb m m = true.
Proof.
  unfold MessageType.eqb.
  rewrite dec_eqb_refl, Metadata_eqb_refl, dict_eqb_refl;
    auto using Field_eqb_refl.
Qed.

Lemma EnumValueType_eqb_refl (v : EnumValueType.t) :
  EnumValueType.eqb v v = true.
Proof.
  unfold EnumValueType.eqb. now rewrite dec_eqb_refl, Metadata_eqb_refl.
Qed.

Lemma EnumType_eqb_refl (e : EnumType.t) : EnumType.eqb e e = true.
Proof.
  unfold EnumType.eqb.
  rewrite dec_eqb_refl, Metadata_eqb_refl, list_eqb_refl;
    auto using EnumValueType_eqb_refl.
Qed.

Lemma Method_eqb_refl (m : Method.t) : Method.eqb m m = true.
Proof.
  unfold Method.eqb.
  rewrite dec_eqb_refl, Metadata_eqb_refl, !MessageType_eqb_refl,
    !option_eqb_refl; auto using MessageType_eqb_refl.
Qed.

Lemma Service_eqb_refl (s : Service.t) : Service.eqb s s = true.
Proof.
  unfold Service.eqb.
  rewrite dec_eqb_refl, Metadata_eqb_refl, dict_eqb_refl;
    auto using Method_eqb_refl.
Qed.

(** C9.  Wrapping the same raw declaration twice, with the same children
    and the same metadata (given, or left to the default factory), gives
    entities that the dataclass equality holds equal. *)
Theorem wrapping_idempotent :
  (forall pb meta, Field.eqb (Field.new pb meta) (Field.new pb meta) = true)
  /\ (forall pb fields meta,
        MessageType.eqb (MessageType.new pb fields meta)
                        (MessageType.new pb fields meta) = true)
  /\ (forall pb meta,
        EnumValueType.eqb (EnumValueType.new pb meta)
                          (EnumValueType.new pb meta) = true)
  /\ (forall pb values meta,
        EnumType.eqb (EnumType.new pb values meta)
                     (EnumType.new pb values meta) = true)
  /\ (forall pb input output payload metadata meta,
        Method.eqb (Method.new pb input output payload metadata meta)
                   (Method.new pb input output payload metadata meta) = true)
  /\ (forall pb methods meta,
        Service.eqb (Service.new pb methods meta)
                    (Service.new pb methods meta) = true).
Proof.
  repeat split; intros;
    auto using Field_eqb_refl, MessageType_eqb_refl, EnumValueType_eqb_refl,
               EnumType_eqb_refl, Method_eqb_refl, Service_eqb_refl.
Qed.

End Equality.

(** ** wrappers.py: the host of a service *)

Section Host.

Import Service.

(** C7.  [host] is the default-host annotation when that is set and not
    empty, and otherwise a placeholder, marked as such and with a text of
    its own; in neither case is it the empty string. *)
Theorem host_or_placeholder (self : Service.t) :
  (Proto.default_host (service_pb self) <> "" ->
   host self = Plain (Proto.default_host (service_pb self)))
  /\ (Proto.default_host (service_pb self) = "" ->
      host self = Placeholder "<<< SERVICE ADDRESS >>>")
  /\ text_of (host self) <> ""
  /\ is_placeholder (host self)
     = negb (str_bool (Proto.default_host (service_pb self))).
Proof.
  unfold host.
  destruct (Proto.default_host (service_pb self)) as [| c s] eqn:E; cbn;
    repeat split; congruence.
Qed.

Lemma host_or_placeholder_witness :
  host (service_at "library.googleapis.com") = Plain "library.googleapis.com"
  /\ host (service_at "") = Placeholder "<<< SERVICE ADDRESS >>>".
Proof.
  split.
  - apply (proj1 (host_or_placeholder (service_at "library.googleapis.com"))).
    discriminate.
  - apply (proj1 (proj2 (host_or_placeholder (service_at "")))).
    reflexivity.
Defined.

End Host.

(** ** wrappers.py: the modules a service imports *)

Section Modules.

Import Service.

Lemma pair_compare_refl (a : string * string) : pair_compare a a = Eq.
Proof. unfold pair_compare. now rewrite !str_compare_refl. Qed.

Lemma pair_compare_eq (a b : string * string) : pair_compare a b = Eq -> a = b.
Proof.
  destruct a as [a1 a2], b as [b1 b2]. unfold pair_compare. cbn [fst snd].
  destruct (str_compare a1 b1) eqn:E1; try discriminate.
  intro E2. apply str_compare_eq in E1, E2. congruence.
Qed.

Lemma pair_compare_gt (a b : string * string) :
  pair_compare a b = Gt -> pair_compare b a = Lt.
Proof.
  destruct a as [a1 a2], b as [b1 b2]. unfold pair_compare. cbn [fst snd].
  destruct (str_compare a1 b1) eqn:E1; try discriminate.
  - apply str_compare_eq in E1. subst b1. rewrite str_compare_refl.
    apply str_compare_gt_lt.
  - intros _. apply str_compare_gt_lt in E1. now rewrite E1.
Qed.

Lemma pair_lt_irrefl (a : string * string) : ~ pair_lt a a.
Proof. unfold pair_lt. now rewrite pair_compare_refl. Qed.

Lemma pair_lt_trans (a b c : string * string) :
  pair_lt a b -> pair_lt b c -> pair_lt a c.
Proof.
  destruct a as [a1 a2], b as [b1 b2], c as [c1 c2].
  unfold pair_lt, pair_compare. cbn [fst snd].
  destruct (str_compare a1 b1) eqn:E1; try discriminate;
    destruct (str_compare b1 c1) eqn:E2; try discriminate; intros H1 H2.
  - apply str_compare_eq in E1, E2. subst. rewrite str_compare_refl.
    eapply str_compare_lt_trans; eassumption.
  - apply str_compare_eq in E1. subst. now rewrite E2.
  - apply str_compare_eq in E2. subst. now rewrite E1.
  - now rewrite (str_compare_lt_trans _ _ _ E1 E2).
Qed.

(** The order of pairs is the lexicographic one. *)
Lemma pair_lt_lexicographic (a b : string * string) :
  pair_lt a b <-> Spec.by_package_then_module a b.
Proof.
  unfold pair_lt, pair_compare, Spec.by_package_then_module.
  destruct (str_compare (fst a) (fst b)) eqn:E; split; intro H.
  - right. split; [ now apply str_compare_eq | exact H ].
  - destruct H as [H | [_ H]]; [ discriminate | exact H ].
  - now left.
  - reflexivity.
  - discriminate.
  - destruct H as [H | [H _]]; [ discriminate | ].
    rewrite H, str_compare_refl in E. discriminate.
Qed.

Lemma insert_In {A : Type} (leb : A -> A -> bool) (x y : A) (l : list A) :
  In y (insert leb x l) <-> y = x \/ In y l.
Proof.
  induction l as [| z l IH]; cbn.
  - intuition congruence.
  - destruct (leb x z); cbn; [ | rewrite IH ]; intuition congruence.
Qed.

Lemma sorted_In {A : Type} (leb : A -> A -> bool) (y : A) (l : list A) :
  In y (sorted leb l) <-> In y l.
Proof.
  induction l as [| x l IH]; cbn; [ tauto | ].
  fold (sorted leb l). rewrite insert_In, IH. intuition congruence.
Qed.

Lemma insert_sorted (x : string * string) (l : list (string * string)) :
  StronglySorted pair_lt l -> ~ In x l ->
  StronglySorted pair_lt (insert pair_leb x l).
Proof.
  induction l as [| y l IH]; intros Hs Hx; cbn.
  - repeat constructor.
  - inversion Hs as [| y' l' Hs' Hy]; subst.
    unfold pair_leb. destruct (pair_compare x y) eqn:E.
    + apply pair_compare_eq in E. subst. destruct Hx. now left.
    + constructor; trivial. constructor; trivial.
      rewrite Forall_forall in Hy |- *. intros z Hz.
      apply pair_lt_trans with y; auto.
    + apply pair_compare_gt in E. constructor.
      * apply IH; trivial. intro. apply Hx. now right.
      * rewrite Forall_forall in Hy |- *. intros z Hz.
        apply insert_In in Hz. destruct Hz as [-> | Hz]; auto.
Qed.

Lemma sorted_strongly (l : list (string * string)) :
  NoDup l -> StronglySorted pair_lt (sorted pair_leb l).
Proof.
  induction 1 as [| x l Hx Hl IH]; cbn.
  - constructor.
  - fold (sorted pair_leb l). apply insert_sorted; trivial.
    now rewrite sorted_In.
Qed.

(** Two strictly ascending lists with the same members are the same. *)
Lemma strongly_sorted_unique (l1 : list (string * string)) :
  forall l2,
    StronglySorted pair_lt l1 -> StronglySorted pair_lt l2 ->
    (forall p, In p l1 <-> In p l2) -> l1 = l2.
Proof.
  induction l1 as [| a l1 IH]; intros [| b l2] H1 H2 Hin; trivial.
  - destruct (proj2 (Hin b)). now left.
  - destruct (proj1 (Hin a)). now left.
  - inversion H1 as [| a' l1' S1 F1]; subst.
    inversion H2 as [| b' l2' S2 F2]; subst.
    rewrite Forall_forall in F1, F2.
    assert (E : a = b).
    { destruct (proj1 (Hin a) (or_introl eq_refl)) as [E | Ha]; auto.
      destruct (proj2 (Hin b) (or_introl eq_refl)) as [E | Hb]; auto.
      destruct (pair_lt_irrefl a).
      apply pair_lt_trans with b; auto. }
    subst b. f_equal. apply IH; trivial.
    intro p. split; intro Hp.
    + destruct (proj1 (Hin p) (or_intror Hp)) as [<- | H]; trivial.
      destruct (pair_lt_irrefl a). auto.
    + destruct (proj2 (Hin p) (or_intror Hp)) as [<- | H]; trivial.
      destruct (pair_lt_irrefl a). auto.
Qed.

Lemma visit_In (acc : list (string * string)) (method : Method.t)
    (p : string * string) :
  In p (visit acc method) <-> In p acc \/ In p (Spec.referenced method).
Proof.
  unfold visit, Spec.referenced.
  destruct (Method.lro_payload method), (Method.lro_metadata method);
    rewrite ?set_add_In; cbn; intuition congruence.
Qed.

Lemma visit_NoDup (acc : list (string * string)) (method : Method.t) :
  NoDup acc -> NoDup (visit acc method).
Proof.
  intro H. unfold visit.
  destruct (Method.lro_payload method), (Method.lro_metadata method);
    repeat apply set_add_NoDup; exact H.
Qed.

Lemma fold_visit_In (ms : list Method.t) :
  forall acc p,
    In p (fold_left visit ms acc)
    <-> In p acc \/ exists method, In method ms /\ In p (Spec.referenced method).
Proof.
  induction ms as [| m ms IH]; intros acc p; cbn [fold_left].
  - split; [ auto | intros [H | (m & [] & _)]; exact H ].
  - rewrite IH, visit_In. split.
    + intros [[H | H] | (m' & Hm' & H)]; eauto.
      * right. exists m. split; [ now left | exact H ].
      * right. exists m'. split; [ now right | exact H ].
    + intros [H | (m' & [<- | Hm'] & H)]; eauto.
Qed.

Lemma fold_visit_NoDup (ms : list Method.t) :
  forall acc, NoDup acc -> NoDup (fold_left visit ms acc).
Proof.
  induction ms as [| m ms IH]; intros acc H; cbn [fold_left]; trivial.
  apply IH, visit_NoDup, H.
Qed.

Lemma pb2_modules_In (self : Service.t) (p : string * string) :
  In p (pb2_modules self)
  <-> exists method,
        In method (Py.values (methods self)) /\ In p (Spec.referenced method).
Proof.
  unfold pb2_modules. rewrite sorted_In, fold_visit_In.
  split; [ intros [[] | H]; exact H | auto ].
Qed.

Lemma pb2_modules_strongly_sorted (self : Service.t) :
  StronglySorted pair_lt (pb2_modules self).
Proof. apply sorted_strongly, fold_visit_NoDup. constructor. Qed.

(** The module of a pair is a [pb2_module], which ends in [_pb2]. *)
Lemma pb2_suffix_not_mod_a (s : string) : (s ++ "_pb2")%string <> "mod_a".
Proof.
  repeat (destruct s as [| ? s]; cbn; try discriminate).
Qed.

Lemma referenced_pb2_module (method : Method.t) (p : string * string) :
  In p (Spec.referenced method) ->
  exists m, snd p = MessageType.pb2_module m.
Proof.
  unfold Spec.referenced. rewrite !in_app_iff. cbn [In].
  intros [H | [H | H]].
  - destruct H as [<- | [<- | []]]; eexists; reflexivity.
  - destruct (Method.lro_payload method) as [m |];
      [ destruct H as [<- | []]; eexists; reflexivity | destruct H ].
  - destruct (Method.lro_metadata method) as [m |];
      [ destruct H as [<- | []]; eexists; reflexivity | destruct H ].
Qed.

(** C6, as stated, fails at its example: the pairs name the module of a
    message with the suffix [_pb2], so the two methods of the claim give
    [mod_a_pb2] and [mod_b_pb2], and no service at all gives the pairs
    that the claim states. *)
Lemma pb2_modules_carry_suffix :
  pb2_modules
    (service_of [("First", method_on (message_in ["pkg"; "b"] "mod_b"));
                 ("Second", method_on (message_in ["pkg"; "a"] "mod_a"))])
  <> [("pkg.a", "mod_a"); ("pkg.b", "mod_b")]
  /\ ~ (exists self,
          pb2_modules self = [("pkg.a", "mod_a"); ("pkg.b", "mod_b")]).
Proof.
  split; [ discriminate | ].
  intros [self H].
  assert (Hin : In ("pkg.a", "mod_a") (pb2_modules self))
    by (rewrite H; now left).
  apply pb2_modules_In in Hin. destruct Hin as (method & _ & Hp).
  apply referenced_pb2_module in Hp. destruct Hp as (m & Hm).
  exact (pb2_suffix_not_mod_a _ (eq_sym Hm)).
Qed.

(** C6, amended.  [pb2_modules] holds exactly the (package, module) pairs
    of the request and response messages of the methods and, where
    present, of their long-running-operation payload and metadata
    messages, the module of a pair being the message's module name with
    [_pb2] after it; it is strictly ascending by package, then module,
    hence free of repeats; and it does not depend on the order in which
    the methods are declared.  Two methods on the modules [mod_b] of
    [pkg.b] and then [mod_a] of [pkg.a] give the pair of [pkg.a] first:
    [(pkg.a, mod_a_pb2)], then [(pkg.b, mod_b_pb2)]. *)
Theorem pb2_modules_sorted_set (self : Service.t) :
  (forall p,
      In p (pb2_modules self)
      <-> exists method,
            In method (Py.values (methods self))
            /\ In p (Spec.referenced method))
  /\ StronglySorted Spec.by_package_then_module (pb2_modules self)
  /\ NoDup (pb2_modules self)
  /\ (forall other,
        Permutation (methods self) (methods other) ->
        pb2_modules other = pb2_modules self)
  /\ pb2_modules
       (service_of [("First", method_on (message_in ["pkg"; "b"] "mod_b"));
                    ("Second", method_on (message_in ["pkg"; "a"] "mod_a"))])
     = [("pkg.a", "mod_a_pb2"); ("pkg.b", "mod_b_pb2")].
Proof.
  assert (Hs := pb2_modules_strongly_sorted self).
  split; [ apply pb2_modules_In | ]. split; [ | split; [ | split ] ].
  - induction Hs as [| a l Hl IH Ha]; constructor; trivial.
    eapply Forall_impl; [ | exact Ha ]. intro b. apply pair_lt_lexicographic.
  - induction Hs as [| a l Hl IH Ha]; constructor; trivial.
    intro Hin. rewrite Forall_forall in Ha.
    exact (pair_lt_irrefl a (Ha a Hin)).
  - intros other Hperm.
    apply strongly_sorted_unique;
      [ apply pb2_modules_strongly_sorted | exact Hs | ].
    intro p. rewrite !pb2_modules_In.
    assert (Hv : Permutation (Py.values (methods self))
                             (Py.values (methods other)))
      by now apply Permutation_map.
    split; intros (m & Hm & H); exists m; split; trivial.
    + eapply Permutation_in; [ apply Permutation_sym | ]; eassumption.
    + eapply Permutation_in; eassumption.
  - reflexivity.
Qed.

Lemma pb2_modules_sorted_set_witness :
  pb2_modules
    (service_of [("Second", method_on (message_in ["pkg"; "a"] "mod_a"));
                 ("First", method_on (message_in ["pkg"; "b"] "mod_b"))])
  = pb2_modules
      (service_of [("First", method_on (message_in ["pkg"; "b"] "mod_b"));
                   ("Second", method_on (message_in ["pkg"; "a"] "mod_a"))]).
Proof.
  apply (proj1 (proj2 (proj2 (proj2 (pb2_modules_sorted_set
    (service_of [("First", method_on (message_in ["pkg"; "b"] "mod_b"));
                 ("Second", method_on (message_in ["pkg"; "a"] "mod_a"))])))))).
  apply perm_swap.
Defined.

End Modules.

(** ** wrappers.py: field headers *)

Section FieldHeaders.

Import Method ServiceViews.

(** The interpreter's tables for [\w] and [\d]; below code point 128 they
    are the ASCII classes. *)
Variables word decimal : N -> bool.
Hypothesis tables : unicode_tables word decimal.

Local Abbreviation header_char := (Method.header_char word decimal).
Local Abbreviation header_pattern := (Method.header_pattern word decimal).
Local Abbreviation valid_header := (Method.valid_header word decimal).
Local Abbreviation field_headers := (Method.field_headers word decimal).

Lemma header_char_ascii (x : N) :
  (x < 128)%N ->
  header_char x
  = ascii_word x || ascii_decimal x || is_char "_" x || is_char "." x.
Proof.
  intro H. unfold Method.header_char.
  destruct (tables x H) as [-> ->]. reflexivity.
Qed.

(** Neither the brace nor the equals sign can stand in a header. *)
Lemma header_char_brace : header_char (code "{") = false.
Proof. now rewrite header_char_ascii. Qed.

Lemma header_char_equals : header_char (code "=") = false.
Proof. now rewrite header_char_ascii. Qed.

(** The texts of the group are the valid headers. *)
Lemma lang_header_group (w : codepoints) :
  lang (Chr (between "a" "z") +> Plus (Chr header_char))%re w ->
  valid_header w = true.
Proof.
  intro H.
  inversion H as [| | | r1 r2 w1 w2 L1 L2 | | | | |]; subst.
  inversion L1 as [| | p a Pa | | | | | |]; subst.
  inversion L2 as [| | | r1 r2 w3 w4 L3 L4 | | | | |]; subst.
  inversion L3 as [| | p b Pb | | | | | |]; subst.
  apply lang_star_chr in L4. cbn [app Method.valid_header].
  now rewrite Pa, Pb, L4.
Qed.

Lemma valid_header_plain (w : codepoints) (x : N) :
  valid_header w = true ->
  between "a" "z" x = false -> header_char x = false ->
  ~ In x w.
Proof.
  destruct w as [| a [| b t]]; try discriminate. cbn [Method.valid_header].
  intros H Hl Hc.
  apply andb_prop in H. destruct H as [H Ht].
  apply andb_prop in H. destruct H as [Ha Hb].
  rewrite forallb_forall in Ht.
  intros [-> | [-> | Hx]]; try congruence.
  apply Ht in Hx. congruence.
Qed.

Lemma valid_header_no_brace (w : codepoints) :
  valid_header w = true -> ~ In (code "{") w.
Proof.
  intro V. apply valid_header_plain; trivial. apply header_char_brace.
Qed.

Lemma valid_header_no_equals (w : codepoints) :
  valid_header w = true -> ~ In (code "=") w.
Proof.
  intro V. apply valid_header_plain; trivial. apply header_char_equals.
Qed.

(** A match of the pattern at the front of a text. *)
Lemma match_here_header_sound (total : nat) (s s' : codepoints) (c : caps) :
  match_here total header_pattern s = Some (s', c) ->
  exists w,
    s = code "{" :: w ++ code "=" :: s'
    /\ valid_header w = true
    /\ group "1" c = Some w.
Proof.
  unfold match_here, Method.header_pattern. rewrite rmatch_seq.
  destruct s as [| x s]; [ discriminate | ].
  unfold Lit1 at 1. unfold is_char. rewrite rmatch_chr.
  destruct (N.eqb_spec (code "{") x) as [<- | N]; [ | discriminate ].
  rewrite rmatch_seq. intro H. apply rmatch_grp in H.
  destruct H as (w & s1 & c1 & -> & L & K & P).
  destruct s1 as [| y s1]; [ discriminate | ].
  unfold Lit1, is_char in K. rewrite rmatch_chr in K.
  destruct (N.eqb_spec (code "=") y) as [<- | N]; [ | discriminate ].
  unfold accept in K. injection K as <- <-.
  exists w. split; [ reflexivity | ].
  split; [ now apply lang_header_group | reflexivity ].
Qed.

(** Greedy iteration over a character class takes the whole run in front
    of a character outside the class. *)
Lemma star_loop_run (total : nat) (p : N -> bool) (k : cont)
    (c : caps) (a : answer) (y : N) (rest : codepoints) :
  p y = false -> k (y :: rest) c = Some a ->
  forall w n,
    forallb p w = true -> List.length (w ++ y :: rest) <= n ->
    star_loop (rmatch total (Chr p)) k n (w ++ y :: rest) c = Some a.
Proof.
  intros Py Hk. induction w as [| x w IH]; intros n Hw Hn.
  - cbn [app]. destruct n as [| n]; cbn [star_loop]; trivial.
    rewrite rmatch_chr, Py. exact Hk.
  - cbn [forallb] in Hw. apply andb_prop in Hw. destruct Hw as [Px Hw].
    cbn [app List.length] in *. destruct n as [| n]; [ lia | ].
    cbn [star_loop]. rewrite rmatch_chr, Px.
    rewrite IH by (trivial; lia).
    assert (E : (List.length (w ++ y :: rest)
                 <? List.length (x :: w ++ y :: rest)) = true)
      by (apply Nat.ltb_lt; cbn [List.length]; lia).
    rewrite E. reflexivity.
Qed.

Lemma match_here_header_complete (total : nat) (w post : codepoints) :
  valid_header w = true ->
  match_here total header_pattern (code "{" :: w ++ code "=" :: post)
  = Some (post, [("1", w)]).
Proof.
  destruct w as [| a [| b t]]; try discriminate. cbn [Method.valid_header].
  intro H. apply andb_prop in H. destruct H as [H Ht].
  apply andb_prop in H. destruct H as [Ha Hb].
  unfold match_here, Method.header_pattern, Plus.
  rewrite rmatch_seq. unfold Lit1 at 1. unfold is_char at 1.
  rewrite rmatch_chr, N.eqb_refl.
  rewrite rmatch_seq, rmatch_grp_eq, rmatch_seq. cbn [app].
  rewrite rmatch_chr, Ha, rmatch_seq, rmatch_chr, Hb, rmatch_star.
  apply star_loop_run;
    [ apply header_char_equals | | exact Ht | apply Nat.le_refl ].
  unfold Lit1, is_char. rewrite rmatch_chr, N.eqb_refl.
  unfold accept.
  change (a :: b :: t ++ code "=" :: post)
    with ((a :: b :: t) ++ code "=" :: post).
  now rewrite firstn_front.
Qed.

Lemma findall_from_S (total : nat) (r : regex) (n : nat) (s : codepoints) :
  findall_from total r (S n) s
  = match match_here total r s with
    | Some (s', c) =>
        let g := match group "1" c with Some w => w | None => [] end in
        if List.length s' <? List.length s then
          g :: findall_from total r (n - (List.length s - List.length s' - 1)) s'
        else
          g :: match s with
               | [] => []
               | _ :: t => findall_from total r n t
               end
    | None =>
        match s with
        | [] => []
        | _ :: t => findall_from total r n t
        end
    end.
Proof. reflexivity. Qed.

(** Every header found stands in the text between a brace and an equals
    sign, and is valid. *)
Lemma findall_header_sound (total : nat) :
  forall n s h,
    In h (findall_from total header_pattern n s) ->
    exists pre post,
      s = pre ++ code "{" :: h ++ code "=" :: post
      /\ valid_header h = true.
Proof.
  induction n as [n IH] using lt_wf_ind. intros s h H.
  destruct n as [| n]; [ destruct H | ].
  rewrite findall_from_S in H.
  destruct (match_here total header_pattern s) as [[s' c] |] eqn:E.
  - apply match_here_header_sound in E. destruct E as (w & -> & V & G).
    rewrite G in H. cbv zeta in H.
    destruct (List.length s' <? _).
    + destruct H as [<- | H].
      * exists [], s'. auto.
      * apply IH in H; [ | lia ].
        destruct H as (pre & post & -> & V0).
        exists (code "{" :: w ++ code "=" :: pre), post.
        split; [ | auto ]. cbn [app]. now rewrite <- app_assoc.
    + destruct H as [<- | H].
      * exists [], s'. auto.
      * apply IH in H; [ | lia ].
        destruct H as (pre & post & Et & V0).
        exists (code "{" :: pre), post.
        split; [ | auto ]. cbn [app]. now rewrite Et.
  - destruct s as [| x t]; [ destruct H | ].
    apply IH in H; [ | lia ].
    destruct H as (pre & post & -> & V0).
    exists (x :: pre), post. auto.
Qed.

(** A text that ends a header cannot run into the next brace. *)
Lemma header_before_brace (w0 : codepoints) :
  ~ In (code "{") w0 ->
  forall pre s' rest,
    w0 ++ code "=" :: s' = pre ++ code "{" :: rest ->
    exists pre', s' = pre' ++ code "{" :: rest.
Proof.
  induction w0 as [| z w0 IH]; intros Hb pre s' rest E.
  - destruct pre as [| y pre]; cbn in E; [ discriminate | ].
    injection E as _ ->. eauto.
  - destruct pre as [| y pre]; cbn in E.
    + injection E as -> _. destruct Hb. now left.
    + injection E as _ E. apply IH in E; trivial.
      intro. apply Hb. now right.
Qed.

Lemma header_determined (w0 w : codepoints) (s' post : codepoints) :
  ~ In (code "=") w0 -> ~ In (code "=") w ->
  w0 ++ code "=" :: s' = w ++ code "=" :: post -> w0 = w.
Proof.
  revert w. induction w0 as [| z w0 IH]; intros [| y w] H0 H E; trivial.
  - injection E as <- _. destruct H. now left.
  - injection E as -> _. destruct H0. now left.
  - injection E as -> E. f_equal. apply IH in E; trivial.
    + intro. apply H0. now right.
    + intro. apply H. now right.
Qed.

(** Every valid header between a brace and an equals sign is found. *)
Lemma findall_header_complete (total : nat) :
  forall n s pre w post,
    List.length s < n ->
    s = pre ++ code "{" :: w ++ code "=" :: post ->
    valid_header w = true ->
    In w (findall_from total header_pattern n s).
Proof.
  induction n as [n IH] using lt_wf_ind. intros s pre w post Hn Es V.
  destruct n as [| n]; [ lia | ].
  rewrite findall_from_S.
  destruct (match_here total header_pattern s) as [[s' c] |] eqn:E.
  - apply match_here_header_sound in E. destruct E as (w0 & E0 & V0 & G).
    rewrite G. cbv zeta.
    assert (Hlt : (List.length s' <? List.length s) = true).
    { apply Nat.ltb_lt. rewrite E0. cbn [List.length].
      rewrite length_app. cbn [List.length]. lia. }
    rewrite Hlt. rewrite E0 in Es.
    destruct pre as [| x pre]; cbn [app] in Es.
    + injection Es as Es.
      left. eapply header_determined; [ | | exact Es ];
        now apply valid_header_no_equals.
    + injection Es as _ Es.
      right. apply header_before_brace in Es.
      * destruct Es as (pre' & Es).
        apply IH with pre' post; trivial; [ lia | ].
        apply Nat.ltb_lt in Hlt. lia.
      * now apply valid_header_no_brace.
  - destruct pre as [| x pre]; cbn [app] in Es.
    + rewrite Es, match_here_header_complete in E by trivial. discriminate.
    + subst s. apply IH with pre post; trivial; [ lia | ].
      cbn [List.length] in Hn. lia.
Qed.

(** Fuel beyond the length of the text changes nothing. *)
Lemma findall_from_fuel (total : nat) (r : regex) :
  forall n m s,
    List.length s < n -> List.length s < m ->
    findall_from total r n s = findall_from total r m s.
Proof.
  induction n as [n IH] using lt_wf_ind. intros m s Hn Hm.
  destruct n as [| n]; [ lia | ]. destruct m as [| m]; [ lia | ].
  rewrite !findall_from_S.
  destruct (match_here total r s) as [[s' c] |]; cbv zeta.
  - destruct (List.length s' <? List.length s) eqn:Hlt.
    + apply Nat.ltb_lt in Hlt. f_equal. apply IH; lia.
    + f_equal. destruct s as [| x t]; trivial.
      cbn [List.length] in *. apply IH; lia.
  - destruct s as [| x t]; trivial.
    cbn [List.length] in *. apply IH; lia.
Qed.

Lemma match_here_header_exact (total : nat) (s s' : codepoints) (c : caps) :
  match_here total header_pattern s = Some (s', c) ->
  exists w,
    valid_header w = true
    /\ s = code "{" :: w ++ code "=" :: s' /\ c = [("1", w)].
Proof.
  intro E. pose proof E as E'. apply match_here_header_sound in E'.
  destruct E' as (w & Es & V & _). exists w. subst s.
  rewrite match_here_header_complete in E by trivial.
  injection E as <-. auto.
Qed.

(** The pattern has no [^]: where the text lies does not matter. *)
Lemma match_here_header_total (t1 t2 : nat) (s : codepoints) :
  match_here t1 header_pattern s = match_here t2 header_pattern s.
Proof.
  destruct (match_here t1 header_pattern s) as [[s1 c1] |] eqn:E1;
    destruct (match_here t2 header_pattern s) as [[s2 c2] |] eqn:E2;
    trivial.
  - apply match_here_header_exact in E1. destruct E1 as (w & V & -> & ->).
    rewrite match_here_header_complete in E2 by trivial. exact E2.
  - apply match_here_header_exact in E1. destruct E1 as (w & V & -> & ->).
    rewrite match_here_header_complete in E2 by trivial. discriminate.
  - apply match_here_header_exact in E2. destruct E2 as (w & V & -> & ->).
    rewrite match_here_header_complete in E1 by trivial. discriminate.
Qed.

Lemma findall_header_total (t1 t2 : nat) :
  forall n s,
    findall_from t1 header_pattern n s = findall_from t2 header_pattern n s.
Proof.
  induction n as [n IH] using lt_wf_ind. intro s.
  destruct n as [| n]; trivial.
  rewrite !findall_from_S, (match_here_header_total t1 t2).
  destruct (match_here t2 header_pattern s) as [[s' c] |]; cbv zeta.
  - destruct (List.length s' <? List.length s).
    + f_equal. apply IH. lia.
    + f_equal. destruct s; trivial. apply IH. lia.
  - destruct s; trivial. apply IH. lia.
Qed.

(** The first header of a text, and the scan of what follows it. *)
Lemma findall_header_step (total : nat) (w post : codepoints) :
  valid_header w = true ->
  forall pre n,
    ~ In (code "{") pre ->
    List.length (pre ++ code "{" :: w ++ code "=" :: post) < n ->
    findall_from total header_pattern n
      (pre ++ code "{" :: w ++ code "=" :: post)
    = w :: findall_from total header_pattern (S (List.length post)) post.
Proof.
  intros V. induction pre as [| x pre IH]; intros n Hb Hn.
  - destruct n as [| n]; [ lia | ]. cbn [app] in *.
    rewrite findall_from_S, match_here_header_complete by trivial.
    cbv zeta. cbn [group String.eqb Ascii.eqb Bool.eqb].
    assert (Hlt : List.length post
                  < List.length (code "{" :: w ++ code "=" :: post)).
    { cbn [List.length]. rewrite length_app. cbn [List.length]. lia. }
    pose proof Hlt as Hlt'. apply Nat.ltb_lt in Hlt'. rewrite Hlt'.
    f_equal. apply findall_from_fuel; lia.
  - destruct n as [| n]; [ lia | ]. cbn [app] in *.
    rewrite findall_from_S.
    destruct (match_here total header_pattern _) as [[s' c] |] eqn:E.
    + apply match_here_header_sound in E. destruct E as (w0 & E & _).
      injection E as -> _. destruct Hb. now left.
    + apply IH; [ | cbn [List.length] in Hn; lia ].
      intro. apply Hb. now right.
Qed.

Lemma findall_header_first (pre w post : codepoints) :
  ~ In (code "{") pre -> valid_header w = true ->
  findall header_pattern (pre ++ code "{" :: w ++ code "=" :: post)
  = w :: findall header_pattern post.
Proof.
  intros Hb V. unfold findall.
  rewrite findall_header_step; trivial; [ | lia ].
  f_equal. apply findall_header_total.
Qed.

(** The headers of a method, one by one. *)
Lemma field_headers_In (method : Method.t) (h : codepoints) :
  In h (field_headers method)
  <-> valid_header h = true
      /\ exists pre post,
           Proto.get (Proto.http (method_pb method))
           = pre ++ code "{" :: h ++ code "=" :: post.
Proof.
  unfold Method.field_headers, findall.
  set (path := Proto.get (Proto.http (method_pb method))).
  split.
  - destruct (seq_bool path); [ | intros [] ].
    intro H. apply findall_header_sound in H.
    destruct H as (pre & post & E & V). eauto.
  - intros (V & pre & post & E).
    assert (Hp : seq_bool path = true)
      by (rewrite E; destruct pre; reflexivity).
    rewrite Hp.
    apply findall_header_complete with pre post; [ lia | exact E | exact V ].
Qed.

(** *** Paths of ASCII characters *)

Lemma is_ascii_In (s : codepoints) (x : N) :
  is_ascii s = true -> In x s -> (x < 128)%N.
Proof.
  unfold is_ascii. rewrite forallb_forall. intros H Hx.
  apply N.ltb_lt. now apply H.
Qed.

(** On such a path the pattern reads the ASCII classes only. *)
Lemma header_pattern_ascii (s : codepoints) :
  is_ascii s = true ->
  same_on s header_pattern (Method.header_pattern ascii_word ascii_decimal).
Proof.
  intro Hs. unfold Method.header_pattern, Plus, Lit1.
  repeat constructor; try reflexivity;
    intros x Hx; rewrite header_char_ascii by (now apply is_ascii_In with s);
    reflexivity.
Qed.

Lemma field_headers_ascii (method : Method.t) :
  is_ascii (Proto.get (Proto.http (method_pb method))) = true ->
  field_headers method = Method.field_headers ascii_word ascii_decimal method.
Proof.
  intro Hs. unfold Method.field_headers.
  destruct (seq_bool _); trivial.
  apply findall_same. now apply header_pattern_ascii.
Qed.

Lemma spec_field_headers_ascii (method : Method.t) :
  is_ascii (Proto.get (Proto.http (method_pb method))) = true ->
  Spec.field_headers word method = Spec.field_headers ascii_word method.
Proof.
  intro Hs. unfold Spec.field_headers.
  destruct (seq_bool _); trivial.
  apply findall_same. unfold Spec.header_pattern, Lit1.
  repeat constructor; try reflexivity.
  intros x Hx. now destruct (tables x (is_ascii_In _ _ Hs Hx)) as [-> _].
Qed.

(** C5, amended.  Without a GET path there are no field headers.  With
    one, the headers are the valid names (one of [a-z], then one or more
    of [[\w\d_.]]) that stand between a brace and an equals sign in it,
    and only those; they come in the order of the path: the first header
    is the one after the first brace that opens a valid name, and the
    others are those of the rest of the path.  The path
    [/v1/{parent=projects/*}/items] gives [parent]; a path without a
    variable gives nothing, and so does a method bound to POST. *)
Theorem field_headers_of_get_path (self : Method.t) :
  (Proto.get (Proto.http (method_pb self)) = [] -> field_headers self = [])
  /\ (forall h,
        In h (field_headers self)
        <-> valid_header h = true
            /\ exists pre post,
                 Proto.get (Proto.http (method_pb self))
                 = pre ++ code "{" :: h ++ code "=" :: post)
  /\ (forall pre h post,
        ~ In (code "{") pre ->
        valid_header h = true ->
        Proto.get (Proto.http (method_pb self))
        = pre ++ code "{" :: h ++ code "=" :: post ->
        field_headers self = h :: findall header_pattern post)
  /\ field_headers (get_method (codes "/v1/{parent=projects/*}/items"))
     = [codes "parent"]
  /\ field_headers
       (get_method (codes "/v1/{name=shelves/*}/books/{book_id=*}"))
     = [codes "name"; codes "book_id"]
  /\ field_headers (get_method (codes "/v1/items")) = []
  /\ field_headers
       (post_method (codes "/v1/{parent=projects/*}/items") (codes "item"))
     = [].
Proof.
  split; [ | split; [ | split; [ | split; [ | split; [ | split ] ] ] ] ].
  - unfold Method.field_headers. now intros ->.
  - apply field_headers_In.
  - intros pre h post Hb V E. unfold Method.field_headers. rewrite E.
    replace (seq_bool (pre ++ code "{" :: h ++ code "=" :: post)) with true
      by (destruct pre; reflexivity).
    now apply findall_header_first.
  - now rewrite field_headers_ascii.
  - now rewrite field_headers_ascii.
  - now rewrite field_headers_ascii.
  - reflexivity.
Qed.

(** X11.  [has_field_headers] holds exactly when the GET path of some
    method of the service has a valid name between a brace and an equals
    sign; a service without GET bindings has none. *)
Theorem has_field_headers_iff (self : Service.t) :
  has_field_headers word decimal self = true
  <-> exists method h pre post,
        In method (Py.values (Service.methods self))
        /\ valid_header h = true
        /\ Proto.get (Proto.http (method_pb method))
           = pre ++ code "{" :: h ++ code "=" :: post.
Proof.
  unfold has_field_headers. rewrite existsb_exists. split.
  - intros (method & Hin & H).
    destruct (field_headers method) as [| h hs] eqn:E; [ discriminate | ].
    assert (Hh : In h (field_headers method)) by (rewrite E; now left).
    apply field_headers_In in Hh. destruct Hh as (V & pre & post & Ep).
    exists method, h, pre, post. auto.
  - intros (method & h & pre & post & Hin & V & Ep).
    exists method. split; trivial.
    assert (Hh : In h (field_headers method))
      by (apply field_headers_In; eauto).
    destruct (field_headers method); [ destruct Hh | reflexivity ].
Qed.

(** X18.  A field header is two characters long at least and starts with
    one of [a-z]; its ASCII characters are letters, digits, underscores
    and dots, so that no brace, equals sign or slash stands in it. *)
Theorem field_headers_shape (self : Method.t) (h : codepoints) :
  In h (field_headers self) ->
  2 <= List.length h
  /\ (exists a rest, h = a :: rest /\ between "a" "z" a = true)
  /\ (forall x, In x h -> (x < 128)%N ->
                ascii_word x = true \/ x = code ".").
Proof.
  intro H. apply field_headers_In in H. destruct H as (V & _).
  destruct h as [| a [| b t]]; try discriminate.
  cbn [Method.valid_header] in V.
  apply andb_prop in V. destruct V as [V Ht].
  apply andb_prop in V. destruct V as [Ha Hb].
  split; [ cbn [List.length]; lia | ]. split; [ eauto | ].
  assert (Hc : forall x, header_char x = true -> (x < 128)%N ->
                         ascii_word x = true \/ x = code ".").
  { intros x Hx Hlt. rewrite header_char_ascii in Hx by trivial.
    unfold ascii_word, ascii_decimal in *.
    destruct (between "a" "z" x), (between "A" "Z" x), (between "0" "9" x),
      (is_char "_" x); cbn in *; auto.
    right. symmetry. now apply N.eqb_eq. }
  intros x [<- | [<- | Hx]] Hlt.
  - left. unfold ascii_word. now rewrite Ha.
  - now apply Hc.
  - apply Hc; trivial. rewrite forallb_forall in Ht. now apply Ht.
Qed.

End FieldHeaders.

Section FieldHeaderExamples.

Import Method ServiceViews.

(** The tables of Latin-1 agree with ASCII below code point 128. *)
Lemma latin1_tables : unicode_tables latin1_word latin1_decimal.
Proof.
  intros x Hx. split; [ | reflexivity ]. unfold latin1_word.
  assert (E : forall n, (128 <= n)%N -> N.eqb x n = false)
    by (intros n Hn; apply N.eqb_neq; lia).
  assert (R : (192 <=? x)%N = false) by (apply N.leb_gt; lia).
  cbn [existsb]. rewrite R, !E by lia. cbn [orb andb].
  now rewrite !orb_false_r.
Qed.

(** C5, as stated, fails: the pattern of the code asks for two characters
    at least after the brace, and leaves out a variable of one letter
    that the pattern of the claim takes. *)
Lemma one_letter_header_dropped :
  (forall word decimal,
      unicode_tables word decimal ->
      field_headers word decimal
        (get_method (codes "/v1/{p=projects/*}/items")) = [])
  /\ (forall word decimal,
        unicode_tables word decimal ->
        Spec.field_headers word
          (get_method (codes "/v1/{p=projects/*}/items")) = [codes "p"]).
Proof.
  split; intros word decimal tables.
  - now rewrite (field_headers_ascii word decimal tables).
  - now rewrite (spec_field_headers_ascii word decimal tables).
Qed.

(** A name with a letter beyond ASCII is a header as well: the path
    [/v1/{né=x}], with the tables of Latin-1. *)
Lemma field_headers_of_get_path_witness :
  unicode_tables latin1_word latin1_decimal
  /\ field_headers latin1_word latin1_decimal
       (get_method (codes "/v1/" ++ code "{" :: [110; 233]%N
                    ++ code "=" :: codes "x}"))
     = [[110; 233]%N].
Proof.
  split; [ exact latin1_tables | ].
  rewrite (proj1 (proj2 (proj2
             (field_headers_of_get_path latin1_word latin1_decimal
                latin1_tables
                (get_method (codes "/v1/" ++ code "{" :: [110; 233]%N
                             ++ code "=" :: codes "x}")))))
             (codes "/v1/") [110; 233]%N (codes "x}")).
  - reflexivity.
  - cbn. intuition discriminate.
  - reflexivity.
  - reflexivity.
Defined.

(** A service whose one method is bound to GET with a variable. *)
Lemma has_field_headers_iff_witness :
  has_field_headers latin1_word latin1_decimal
    (service_of
       [("GetItem", get_method (codes "/v1/{parent=projects/*}/items"))])
  = true.
Proof.
  apply (proj2 (has_field_headers_iff latin1_word latin1_decimal
                  latin1_tables
                  (service_of
                     [("GetItem",
                       get_method (codes "/v1/{parent=projects/*}/items"))]))).
  exists (get_method (codes "/v1/{parent=projects/*}/items")),
    (codes "parent"), (codes "/v1/"), (codes "projects/*}/items").
  repeat split. now left.
Defined.

Lemma field_headers_shape_witness : 2 <= List.length (codes "parent").
Proof.
  apply (field_headers_shape latin1_word latin1_decimal latin1_tables
           (get_method (codes "/v1/{parent=projects/*}/items"))
           (codes "parent")).
  now left.
Defined.

End FieldHeaderExamples.
(** ** wrappers.py: the views of a service, together *)

Section ServiceFacts.

Import Service ServiceViews.

(** X12.  [has_lro] holds exactly when some method has a payload
    reference, and then the module of that payload is among
    [pb2_modules]. *)
Theorem has_lro_iff (self : Service.t) :
  has_lro self = true
  <-> exists method payload,
        In method (Py.values (methods self))
        /\ Method.lro_payload method = Some payload
        /\ In (module_pair payload) (pb2_modules self).
Proof.
  unfold has_lro. rewrite existsb_exists. split.
  - intros (method & Hin & H).
    destruct (Method.lro_payload method) as [payload |] eqn:E;
      [ | discriminate ].
    exists method, payload. repeat split; trivial.
    apply pb2_modules_In. exists method. split; trivial.
    unfold Spec.referenced. rewrite E. cbn. auto.
  - intros (method & payload & Hin & E & _).
    exists method. split; trivial. now rewrite E.
Qed.

(** X13.  When every message that the methods refer to lies in one
    module, [pb2_modules] is that one pair, once. *)
Theorem pb2_modules_single_module (self : Service.t) (p : string * string) :
  methods self <> [] ->
  (forall method q,
      In method (Py.values (methods self)) ->
      In q (Spec.referenced method) -> q = p) ->
  pb2_modules self = [p].
Proof.
  intros Hne Hall.
  apply strongly_sorted_unique.
  - apply pb2_modules_strongly_sorted.
  - repeat constructor.
  - intro q. rewrite pb2_modules_In. split.
    + intros (method & Hin & Hq). left. symmetry. eauto.
    + intros [<- | []].
      destruct (methods self) as [| [k method] rest] eqn:E; [ congruence | ].
      exists method. split; [ now left | ].
      assert (Hq : In (module_pair (Method.input method))
                      (Spec.referenced method)) by (now left).
      rewrite <- (Hall method _ (or_introl eq_refl) Hq). exact Hq.
Qed.

Lemma pb2_modules_single_module_witness :
  pb2_modules
    (service_of [("First", method_on (message_in ["pkg"; "a"] "mod_a"));
                 ("Second", method_on (message_in ["pkg"; "a"] "mod_a"))])
  = [("pkg.a", "mod_a_pb2")].
Proof.
  apply (pb2_modules_single_module
           (service_of
              [("First", method_on (message_in ["pkg"; "a"] "mod_a"));
               ("Second", method_on (message_in ["pkg"; "a"] "mod_a"))])).
  - discriminate.
  - intros method q [<- | [<- | []]] [<- | [<- | []]]; reflexivity.
Defined.

Lemma insert_length {A : Type} (leb : A -> A -> bool) (x : A) (l : list A) :
  List.length (insert leb x l) = S (List.length l).
Proof.
  induction l as [| y l IH]; cbn; trivial.
  destruct (leb x y); cbn; [ | rewrite IH ]; reflexivity.
Qed.

Lemma sorted_length {A : Type} (leb : A -> A -> bool) (l : list A) :
  List.length (sorted leb l) = List.length l.
Proof.
  induction l as [| x l IH]; cbn; trivial.
  fold (sorted leb l). now rewrite insert_length, IH.
Qed.

Lemma set_add_length {A : Type} (eq_dec : forall x y : A, {x = y} + {x <> y})
    (acc : list A) (x : A) :
  List.length (set_add eq_dec acc x) <= S (List.length acc).
Proof.
  unfold set_add. destruct (in_dec eq_dec x acc); [ lia | ].
  rewrite length_app. cbn. lia.
Qed.

Lemma visit_length (acc : list (string * string)) (method : Method.t) :
  List.length (visit acc method) <= List.length acc + 4.
Proof.
  unfold visit.
  pose proof (set_add_length pair_eq_dec acc
                (module_pair (Method.input method))) as H1.
  set (a1 := set_add pair_eq_dec acc _) in *.
  pose proof (set_add_length pair_eq_dec a1
                (module_pair (Method.output method))) as H2.
  set (a2 := set_add pair_eq_dec a1 _) in *.
  destruct (Method.lro_payload method) as [m |].
  - pose proof (set_add_length pair_eq_dec a2 (module_pair m)) as H3.
    set (a3 := set_add pair_eq_dec a2 _) in *.
    destruct (Method.lro_metadata method) as [m' |]; [ | lia ].
    pose proof (set_add_length pair_eq_dec a3 (module_pair m')). lia.
  - destruct (Method.lro_metadata method) as [m' |]; [ | lia ].
    pose proof (set_add_length pair_eq_dec a2 (module_pair m')). lia.
Qed.

Lemma fold_visit_length (ms : list Method.t) :
  forall acc,
    List.length (fold_left visit ms acc)
    <= List.length acc + 4 * List.length ms.
Proof.
  induction ms as [| m ms IH]; intro acc; cbn [fold_left List.length].
  - lia.
  - pose proof (IH (visit acc m)). pose proof (visit_length acc m). lia.
Qed.

(** X14.  [pb2_modules] is empty exactly for a service without methods,
    and holds at most four pairs for each method. *)
Theorem pb2_modules_size (self : Service.t) :
  (pb2_modules self = [] <-> methods self = [])
  /\ List.length (pb2_modules self) <= 4 * List.length (methods self).
Proof.
  split.
  - split.
    + intro E. destruct (methods self) as [| [k method] rest] eqn:Em; trivial.
      assert (H : In (module_pair (Method.input method)) (pb2_modules self)).
      { apply pb2_modules_In. exists method. rewrite Em.
        split; now left. }
      rewrite E in H. destruct H.
    + intro E. unfold pb2_modules. now rewrite E.
  - unfold pb2_modules. rewrite sorted_length.
    pose proof (fold_visit_length (Py.values (methods self)) []) as H.
    unfold Py.values in *. rewrite length_map in H. exact H.
Qed.

End ServiceFacts.

